(** * Theta ledger: consensus engine, block hashing, mempool handler, RPC

    A shallow embedding of
      - [core/block.go]       (package core:      BlockHeader.Hash, ExtendedBlock.Hash),
      - [consensus/engine.go] (package consensus: DefaultEngine),
      - the mempool message handler (package mempool),
      - the raw-transaction RPC endpoint (package rpc),
    together with the properties the specification states about them.

    Conventions.
      - A Go pointer is an [option]: [None] is [nil].  A method that panics
        (nil dereference, failed type assertion) returns [None] or an explicit
        [Panicked] outcome.
      - Fixed-width unsigned integers are [Z] with the wrap-around written out.
      - Byte slices and byte arrays are [list Byte.byte].
      - Logging ([log.WithFields], [log.Infof]) has no effect on the state and
        is left out. *)

From Stdlib Require Import ZArith List Lia.
From Stdlib Require Import Strings.String Strings.Ascii Strings.Byte.
From stdpp Require Import base option list gmap strings.

Open Scope Z_scope.

(* ===================================================================== *)
(** * Package common: bytes, hashes, addresses *)
(* ===================================================================== *)

Module common.

Definition Bytes := list Byte.byte.

#[global] Instance byte_eq_dec : EqDecision Byte.byte := Byte.byte_eq_dec.

(** [common.Hash] is [[32]byte]; [common.Address] is [[20]byte]. *)
Definition HashLength : nat := 32.
Definition AddressLength : nat := 20.
Definition Hash := list Byte.byte.
Definition Address := list Byte.byte.

(** The Go zero value [common.Hash{}]: thirty-two zero bytes. *)
Definition zero_Hash : Hash := repeat x00 HashLength.

(** Modelled from the spec: [common.Hash.IsEmpty] is declared in package
    common, which is not among the files verified here.  The spec says the hash
    "is cached on first computation"; the cache slot of a header that has not
    been hashed holds the zero value of its type, so the emptiness test is
    equality with the all-zero hash. *)
Definition IsEmpty (h : Hash) : bool := bool_decide (h = zero_Hash).

(** [bytes.Compare]: lexicographic comparison of two byte slices, giving
    -1, 0 or 1.  A nil slice and an empty slice are both [[]]. *)
Fixpoint bytes_Compare (a b : Bytes) : Z :=
  match a, b with
  | [], [] => 0
  | [], _ :: _ => -1
  | _ :: _, [] => 1
  | x :: a', y :: b' =>
      match N.compare (Byte.to_N x) (Byte.to_N y) with
      | Lt => -1
      | Gt => 1
      | Eq => bytes_Compare a' b'
      end
  end.

(** Unsigned 32-bit arithmetic wraps. *)
Definition wrap32 (z : Z) : Z := z mod 2 ^ 32.

End common.

(* ===================================================================== *)
(** * Go channels *)
(* ===================================================================== *)

(** A buffered channel [make(chan A, cap)]: the buffer in FIFO order, its
    capacity, and the values of the senders parked on it (a plain send on a
    full buffer parks the sending goroutine until a receiver makes room). *)
Module Chan.

Record t (A : Type) := mk {
  buf : list A;
  cap : Z;
  sendq : list A
}.
Arguments mk {A} _ _ _.
Arguments buf {A} _.
Arguments cap {A} _.
Arguments sendq {A} _.

(** [make(chan A, n)] *)
Definition make {A} (n : Z) : t A := mk [] n [].

Definition full {A} (c : t A) : bool := cap c <=? Z.of_nat (length (buf c)).

(** What happens to the goroutine executing a send statement. *)
Inductive send_outcome := Sent | Parked.

(** [c <- v]: completes when the buffer has room, otherwise the sender
    blocks, its value waiting in the channel's sender queue. *)
Definition send {A} (c : t A) (v : A) : t A * send_outcome :=
  if full c then (mk (buf c) (cap c) (sendq c ++ [v]), Parked)
  else (mk (buf c ++ [v]) (cap c) (sendq c), Sent).

(** [select { case c <- v: default: }]: never blocks; the boolean tells
    whether the value went in ([true]) or the default branch ran. *)
Definition try_send {A} (c : t A) (v : A) : t A * bool :=
  if full c then (c, false)
  else (mk (buf c ++ [v]) (cap c) (sendq c), true).

(** [<-c] when a value is buffered: the head of the buffer is received
    and the first parked sender, if any, completes its send. *)
Definition recv {A} (c : t A) : option (A * t A) :=
  match buf c with
  | [] => None
  | v :: rest =>
      match sendq c with
      | [] => Some (v, mk rest (cap c) [])
      | s :: q => Some (v, mk (rest ++ [s]) (cap c) q)
      end
  end.

(** Everything sent and not yet received, oldest first: the buffer, then
    the values of the parked senders. *)
Definition pending {A} (c : t A) : list A := buf c ++ sendq c.

(** What holds of every channel made by [make] with a positive capacity and
    then only sent to and received from: the buffer stays within the
    capacity, and a sender is parked only while the buffer is full. *)
Definition wf {A} (c : t A) : Prop :=
  0 < cap c /\
  Z.of_nat (length (buf c)) <= cap c /\
  (sendq c <> [] -> full c = true).

End Chan.

(* ===================================================================== *)
(** * Package core: block headers and their hash (core/block.go) *)
(* ===================================================================== *)

Module core.
Import common.

(** [MaxNumRegularTxsPerBlock] *)
Definition MaxNumRegularTxsPerBlock : Z := 1024.

(** The two library calls [BlockHeader.Hash] makes.  [rlp.EncodeToBytes]
    serialises the exported fields of the header in their declared order
    (ChainID, Epoch, Height, Parent, TxHash, StateHash, Timestamp, Proposer);
    the unexported cache field is not part of the encoding.  The error it
    may return is discarded by the caller, so only the bytes matter.
    [crypto.Keccak256Hash] returns a [common.Hash], hence 32 bytes. *)
Class Primitives := {
  rlp_EncodeToBytes :
    string -> Z -> Z -> Hash -> Hash -> Hash -> option Z -> Address -> Bytes;
  crypto_Keccak256Hash : Bytes -> Hash;
  crypto_Keccak256Hash_length :
    forall raw, length (crypto_Keccak256Hash raw) = HashLength
}.

(** [type BlockHeader struct]; [Timestamp] is a [*big.Int], [hash] the
    cache of the calculated hash. *)
Record BlockHeader := mkBlockHeader {
  ChainID : string;
  Epoch : Z;
  Height : Z;
  Parent : Hash;
  TxHash : Hash;
  StateHash : Hash;
  Timestamp : option Z;
  Proposer : Address;
  hash : Hash
}.

(** [type Block struct { *BlockHeader; Txs []common.Bytes }] *)
Record Block := mkBlock {
  Block_BlockHeader : option BlockHeader;
  Txs : list Bytes
}.

Inductive BlockStatus :=
| BlockStatusPending
| BlockStatusCommitted
| BlockStatusFinalized.

(** [type ExtendedBlock struct { *Block; Children; Status }] *)
Record ExtendedBlock := mkExtendedBlock {
  ExtendedBlock_Block : option Block;
  Children : list Hash;
  Status : BlockStatus
}.

(** [h.hash = v] *)
Definition set_hash (v : Hash) (h : BlockHeader) : BlockHeader :=
  mkBlockHeader (ChainID h) (Epoch h) (Height h) (Parent h) (TxHash h)
                (StateHash h) (Timestamp h) (Proposer h) v.

(** [&BlockHeader{}] and [NewBlock()] *)
Definition empty_BlockHeader : BlockHeader :=
  mkBlockHeader EmptyString 0 0 zero_Hash zero_Hash zero_Hash None
                (repeat x00 AddressLength) zero_Hash.

Definition NewBlock : Block := mkBlock (Some empty_BlockHeader) [].

Section Hashing.
Context `{Primitives}.

(** [rlp.EncodeToBytes(h)] *)
Definition encode (h : BlockHeader) : Bytes :=
  rlp_EncodeToBytes (ChainID h) (Epoch h) (Height h) (Parent h) (TxHash h)
                    (StateHash h) (Timestamp h) (Proposer h).

(** [func (h *BlockHeader) Hash() common.Hash]: the returned hash and the
    receiver after the call (the cache may have been filled). *)
Definition BlockHeader_Hash (h : option BlockHeader)
  : Hash * option BlockHeader :=
  match h with
  | None => (zero_Hash, None)
  | Some hd =>
      let hd' :=
        if IsEmpty (hash hd)
        then set_hash (crypto_Keccak256Hash (encode hd)) hd
        else hd in
      (hash hd', Some hd')
  end.

(** [b.Hash()] on a [*Block]: the method promoted from the embedded
    [*BlockHeader].  A nil [*Block] cannot be asked for its embedded field. *)
Definition Block_Hash (b : option Block) : option (Hash * option Block) :=
  match b with
  | None => None
  | Some bk =>
      let '(v, h') := BlockHeader_Hash (Block_BlockHeader bk) in
      Some (v, Some (mkBlock h' (Txs bk)))
  end.

(** [func (eb *ExtendedBlock) Hash() common.Hash] *)
Definition ExtendedBlock_Hash (eb : option ExtendedBlock)
  : option (Hash * option ExtendedBlock) :=
  match eb with
  | None => None
  | Some e =>
      match ExtendedBlock_Block e with
      | None => Some (zero_Hash, Some e)
      | Some bk =>
          let '(v, h') := BlockHeader_Hash (Block_BlockHeader bk) in
          Some (v, Some (mkExtendedBlock (Some (mkBlock h' (Txs bk)))
                                         (Children e) (Status e)))
      end
  end.

End Hashing.

(** Stand-ins for the two library calls, used in the examples: the encoding
    lists the fields in their declared order, the digest is a 32-byte
    running sum. *)
Definition toy_bytes_of_Z (z : Z) : Bytes :=
  [byte_of_ascii (ascii_of_N (Z.to_N (z mod 256)))].

Definition toy_encode (chainID : string) (epoch height : Z)
    (parent txHash stateHash : Hash) (timestamp : option Z)
    (proposer : Address) : Bytes :=
  map byte_of_ascii (list_ascii_of_string chainID)
  ++ toy_bytes_of_Z epoch ++ toy_bytes_of_Z height
  ++ parent ++ txHash ++ stateHash
  ++ match timestamp with Some t => toy_bytes_of_Z t | None => [] end
  ++ proposer.

Definition toy_digest (raw : Bytes) : Hash :=
  let sum := fold_left (fun acc b => (acc + Byte.to_N b) mod 256)%N raw 1%N in
  repeat (byte_of_ascii (ascii_of_N sum)) HashLength.

Definition toy_Primitives : Primitives :=
  {| rlp_EncodeToBytes := toy_encode;
     crypto_Keccak256Hash := toy_digest;
     crypto_Keccak256Hash_length := fun raw => repeat_length _ HashLength |}.

(** A header as a proposer fills it in: chain "t", epoch 1, height 1. *)
Definition sample_header : BlockHeader :=
  mkBlockHeader (String "t" EmptyString) 1 1 zero_Hash zero_Hash zero_Hash
                (Some 1000) (repeat x01 AddressLength) zero_Hash.

(** The field assignment [h.Epoch = v]. *)
Definition set_Epoch (v : Z) (h : BlockHeader) : BlockHeader :=
  mkBlockHeader (ChainID h) v (Height h) (Parent h) (TxHash h)
                (StateHash h) (Timestamp h) (Proposer h) (hash h).

(** [sample_header] after a first call of [Hash], and the same header once
    its epoch has then been assigned 9. *)
Definition hashed_header : BlockHeader :=
  match (BlockHeader_Hash (H := toy_Primitives) (Some sample_header)).2 with
  | Some h => h
  | None => sample_header
  end.

Definition reassigned_header : BlockHeader := set_Epoch 9 hashed_header.

(** The children part of [func (eb *ExtendedBlock) String()]: the buffer
    starts as an opening bracket, the loop runs over [eb.Children] with its
    flag [start], which is [true] before the loop, and a closing bracket
    follows.  [str] is [common.Hash.String].  The loop state is the buffer
    and the flag. *)
Definition children_step (str : Hash -> string) (st : string * bool)
    (c : Hash) : string * bool :=
  let '(children, start) := st in
  let '(children, start) :=
    if negb start then ((children ++ ",")%string, false)
    else (children, start) in
  ((children ++ str c)%string, start).

Definition ExtendedBlock_String_children (str : Hash -> string)
    (eb : ExtendedBlock) : string :=
  let st := fold_left (children_step str) (Children eb) ("["%string, true) in
  (st.1 ++ "]")%string.

End core.

(* ===================================================================== *)
(** * Package blockchain: the block tree the engine points into *)
(* ===================================================================== *)

Module blockchain.
Import common.

(** Address of an [ExtendedBlock] on the heap; a [*ExtendedBlock] is an
    [option ptr].  A [*Block] is kept as an opaque reference. *)
Definition ptr := nat.
Definition BlockRef := nat.

(** Modelled from the spec: the declaration of [blockchain.Vote] is not
    among the sources.  Spec, data model: "Fields: voter address, block
    hash, epoch at which vote was cast, and a signature". *)
Record Vote := mkVote {
  Vote_Voter : Address;
  Vote_Block : Bytes;
  Vote_Epoch : Z;
  Vote_Signature : Bytes
}.

(** Modelled from the spec: [blockchain.VoteSet], "mapping from voter
    address to Vote for one specific block hash", kept as the list of its
    votes; a commit certificate is "a vote set proving quorum". *)
Definition VoteSet := list Vote.
Definition CommitCertificate_t := VoteSet.

Inductive BlockStatus :=
| BlockStatusPending
| BlockStatusCommitted
| BlockStatusFinalized.

(** Modelled from the spec: the declaration of [blockchain.ExtendedBlock]
    is not among the sources.  The fields are the ones engine.go reads
    ([Block], [Hash], [Epoch], [Height], [Parent], [CommitCertificate]),
    together with the child links and the status label of the spec's data
    model ("list of child hashes, status in {Pending, Committed,
    Finalized}, and an optional commit certificate"). *)
Record ExtendedBlock := mkExtendedBlock {
  Block : BlockRef;
  Hash : Bytes;
  Epoch : Z;
  Height : Z;
  Parent : option ptr;
  Children : list ptr;
  CommitCertificate : option CommitCertificate_t;
  Status : BlockStatus
}.

Definition Heap := gmap ptr ExtendedBlock.

(** [type Chain struct { Root *ExtendedBlock; ... }] *)
Record Chain := mkChain { Root : option ptr }.

(** Reading through a pointer: [None] when the pointer is nil. *)
Definition deref (h : Heap) (p : option ptr) : option ExtendedBlock :=
  a ← p; h !! a.

#[global] Instance BlockStatus_eq_dec : EqDecision BlockStatus.
Proof. solve_decision. Defined.

Definition set_Status (s : BlockStatus) (b : ExtendedBlock) : ExtendedBlock :=
  mkExtendedBlock (Block b) (Hash b) (Epoch b) (Height b) (Parent b)
                  (Children b) (CommitCertificate b) s.

(** Does candidate [(c, dc)] beat the best so far [(b, db)]?  Longer path
    first; on equal length the higher epoch, then the greater hash. *)
Definition beats (h : Heap) (cand best : ptr * nat) : bool :=
  match h !! cand.1, h !! best.1 with
  | Some c, Some b =>
      if (best.2 <? cand.2)%nat then true
      else if (cand.2 <? best.2)%nat then false
      else if Epoch b <? Epoch c then true
      else if Epoch c <? Epoch b then false
      else bytes_Compare (Hash c) (Hash b) =? 1
  | _, _ => false
  end.

(** Modelled from the spec: [ExtendedBlock.FindDeepestDescendant] is not
    among the sources.  Spec, block tree: "returns the tip of the longest
    path starting at from, breaking ties by (highest epoch, then
    lexicographic block hash)".  It returns the block and its depth below
    [from]; the recursion over the child links is bounded by [fuel]. *)
Fixpoint FindDeepestDescendant (fuel : nat) (h : Heap) (from : ptr)
  : option (ptr * nat) :=
  match fuel with
  | O => None
  | S f =>
      eb ← h !! from;
      foldl (fun acc c =>
               best ← acc;
               r ← FindDeepestDescendant f h c;
               let cand := (r.1, S r.2) in
               Some (if beats h cand best then cand else best))
            (Some (from, O)) (Children eb)
  end.

(** Modelled from the spec: the block tree's [is_ancestor(a, b)], "a along
    the parent-chain of b", is not among the sources.  [b] has to be a block
    of the tree, and a block lies on its own parent chain. *)
Fixpoint is_ancestor (fuel : nat) (h : Heap) (a b : option ptr) : bool :=
  match deref h b with
  | None => false
  | Some eb =>
      if decide (a = b) then true
      else match fuel with
           | O => false
           | S f => is_ancestor f h a (Parent eb)
           end
  end.

End blockchain.

(* ===================================================================== *)
(** * Package consensus: the engine (consensus/engine.go) *)
(* ===================================================================== *)

Module consensus.
Import common blockchain.

(** Modelled from the spec: [consensus.Proposal] is not among the sources.
    Spec, data model: "A (Block, optional VoteSet proving CC for the new
    block's parent) pair". *)
Record Proposal := mkProposal {
  Proposal_block : option ptr;
  Proposal_votes : option VoteSet
}.

(** What travels on [incoming chan interface{}]. *)
Inductive Msg :=
| MsgProposal (p : Proposal)
| MsgVote (v : Vote)
| MsgOther (tag : nat).

(** [type DefaultEngine struct]: the channels and the consensus state.  The
    collaborators it also points to (network, epoch manager, validator
    manager, the two strategies) keep their own state, see [World]. *)
Record DefaultEngine := mkEngine {
  chain : Chain;
  incoming : Chan.t Msg;
  finalizedBlocks : Chan.t BlockRef;
  highestCCBlock : option ptr;
  lastFinalizedBlock : option ptr;
  tip : option ptr;
  lastVoteHeight : Z;
  voteLog : gmap Z Vote;
  collectedVotes : gmap string VoteSet;
  epoch : Z
}.

(** The method calls engine.go makes on objects whose code lies outside
    it: the proposer and replica strategies, the epoch manager and the
    network.  [network.ID()], read only to label log lines, goes with the
    logging. *)
Inductive Call :=
| ProposerInit
| ReplicaInit
| EpochManagerInit
| NetworkAddMessageHandler
| ProposerEnterNewEpoch (newEpoch : Z)
| ReplicaEnterNewEpoch (newEpoch : Z)
| EpochManagerSetEpoch (newEpoch : Z)
| ReplicaHandleProposal (p : Proposal)
| ProposerHandleVote (v : Vote).

(** Everything a call can reach: the heap of blocks, the engine, the
    collaborators' own state, and the record of the calls the engine has
    made on them, oldest first. *)
Record World (Ext : Type) := mkWorld {
  heap : Heap;
  eng : DefaultEngine;
  ext : Ext;
  calls : list Call
}.
Arguments mkWorld {Ext} _ _ _ _.
Arguments heap {Ext} _.
Arguments eng {Ext} _.
Arguments ext {Ext} _.
Arguments calls {Ext} _.

(** The strategies, the epoch manager and the network are interfaces; an
    implementation says what each call does.  Every one of them holds a
    pointer to the engine, so a call may change any part of the world. *)
Class Collaborators (Ext : Type) := {
  perform : Call -> World Ext -> World Ext
}.

(** Field assignments [e.f = v]. *)
Definition set_incoming (v : Chan.t Msg) (e : DefaultEngine) :=
  mkEngine (chain e) v (finalizedBlocks e) (highestCCBlock e)
           (lastFinalizedBlock e) (tip e) (lastVoteHeight e) (voteLog e)
           (collectedVotes e) (epoch e).
Definition set_finalizedBlocks (v : Chan.t BlockRef) (e : DefaultEngine) :=
  mkEngine (chain e) (incoming e) v (highestCCBlock e)
           (lastFinalizedBlock e) (tip e) (lastVoteHeight e) (voteLog e)
           (collectedVotes e) (epoch e).
Definition set_highestCCBlock (v : option ptr) (e : DefaultEngine) :=
  mkEngine (chain e) (incoming e) (finalizedBlocks e) v
           (lastFinalizedBlock e) (tip e) (lastVoteHeight e) (voteLog e)
           (collectedVotes e) (epoch e).
Definition set_lastFinalizedBlock (v : option ptr) (e : DefaultEngine) :=
  mkEngine (chain e) (incoming e) (finalizedBlocks e) (highestCCBlock e)
           v (tip e) (lastVoteHeight e) (voteLog e)
           (collectedVotes e) (epoch e).
Definition set_tip (v : option ptr) (e : DefaultEngine) :=
  mkEngine (chain e) (incoming e) (finalizedBlocks e) (highestCCBlock e)
           (lastFinalizedBlock e) v (lastVoteHeight e) (voteLog e)
           (collectedVotes e) (epoch e).
Definition set_epoch (v : Z) (e : DefaultEngine) :=
  mkEngine (chain e) (incoming e) (finalizedBlocks e) (highestCCBlock e)
           (lastFinalizedBlock e) (tip e) (lastVoteHeight e) (voteLog e)
           (collectedVotes e) v.

Definition upd_eng {Ext} (f : DefaultEngine -> DefaultEngine) (w : World Ext)
  : World Ext :=
  mkWorld (heap w) (f (eng w)) (ext w) (calls w).

Section Engine.
Context {Ext : Type} `{!Collaborators Ext}.

(** A call on a collaborator: the implementation runs, and the call is
    appended to the record. *)
Definition invoke (c : Call) (w : World Ext) : World Ext :=
  let w' := perform c w in
  mkWorld (heap w') (eng w') (ext w') (calls w ++ [c]).

(** [func NewEngine(chain, network, validators) *DefaultEngine].  [ext0] is
    the state of the collaborators [NewEngine] constructs or is handed
    (network, validator manager, epoch manager, default strategies); a nil
    [chain] makes [chain.Root] panic. *)
Definition NewEngine (chain : option Chain) (heap0 : Heap) (ext0 : Ext)
  : option (World Ext) :=
  c ← chain;
  let e := {| chain := c;
              incoming := Chan.make 5000;
              finalizedBlocks := Chan.make 5000;
              highestCCBlock := Root c;
              lastFinalizedBlock := Root c;
              tip := Root c;
              lastVoteHeight := 0;
              voteLog := ∅;
              collectedVotes := ∅;
              epoch := 0 |} in
  let w := mkWorld heap0 e ext0 [] in
  let w := invoke ProposerInit w in
  let w := invoke ReplicaInit w in
  let w := invoke EpochManagerInit w in
  let w := invoke NetworkAddMessageHandler w in
  Some w.

(** [func (e *DefaultEngine) Chain()] *)
Definition Chain_of (w : World Ext) : Chain := chain (eng w).

(** [func (e *DefaultEngine) enterNewEpoch(newEpoch uint32)] *)
Definition enterNewEpoch (newEpoch : Z) (w : World Ext) : World Ext :=
  let w := upd_eng (set_epoch newEpoch) w in
  let w := invoke (ProposerEnterNewEpoch newEpoch) w in
  invoke (ReplicaEnterNewEpoch newEpoch) w.

(** [func (e *DefaultEngine) HandleMessage(network, msg)]: the plain send
    [e.incoming <- msg], with what became of the calling goroutine. *)
Definition HandleMessage (msg : Msg) (w : World Ext)
  : World Ext * Chan.send_outcome :=
  let '(c, o) := Chan.send (incoming (eng w)) msg in
  (upd_eng (set_incoming c) w, o).

(** [handleProposal] and [handleVote] *)
Definition handleProposal (p : Proposal) (w : World Ext) : World Ext :=
  invoke (ReplicaHandleProposal p) w.

Definition handleVote (v : Vote) (w : World Ext) : World Ext :=
  invoke (ProposerHandleVote v) w.

(** One turn of [mainLoop] through [case msg := <-e.incoming]; an unknown
    message type is only logged. *)
Definition mainLoop_incoming (w : World Ext) : option (World Ext) :=
  '(msg, c) ← Chan.recv (incoming (eng w));
  let w := upd_eng (set_incoming c) w in
  Some match msg with
       | MsgProposal p => handleProposal p w
       | MsgVote v => handleVote v w
       | MsgOther _ => w
       end.

(** One turn of [mainLoop] through [case newEpoch := <-e.epochManager.C]. *)
Definition mainLoop_epoch (newEpoch : Z) (w : World Ext) : World Ext :=
  enterNewEpoch newEpoch w.

(** [func (e *DefaultEngine) setTip() *blockchain.ExtendedBlock] *)
Definition setTip (w : World Ext) : option (option ptr * World Ext) :=
  from ← highestCCBlock (eng w);
  '(ret, _) ← FindDeepestDescendant (S (size (heap w))) (heap w) from;
  Some (Some ret, upd_eng (set_tip (Some ret)) w).

(** [func (e *DefaultEngine) getTip()] *)
Definition getTip (w : World Ext) : option ptr := tip (eng w).

(** [func (e *DefaultEngine) FinalizedBlocks()] *)
Definition FinalizedBlocks (w : World Ext) : Chan.t BlockRef :=
  finalizedBlocks (eng w).

(** [func (e *DefaultEngine) finalizeBlock(block *blockchain.ExtendedBlock)] *)
Definition finalizeBlock (block : option ptr) (w : World Ext)
  : option (World Ext) :=
  b ← deref (heap w) block;
  l ← deref (heap w) (lastFinalizedBlock (eng w));
  if bytes_Compare (Hash b) (Hash l) =? 0 then Some w
  else
    let w := upd_eng (set_lastFinalizedBlock block) w in
    let '(c, _) := Chan.try_send (finalizedBlocks (eng w)) (Block b) in
    Some (upd_eng (set_finalizedBlocks c) w).

(** [func (e *DefaultEngine) processCCBlock(ccBlock *blockchain.ExtendedBlock)] *)
Definition processCCBlock (ccBlock : option ptr) (w : World Ext)
  : option (World Ext) :=
  cc ← deref (heap w) ccBlock;
  hcc ← deref (heap w) (highestCCBlock (eng w));
  let w := if Height hcc <? Height cc
           then upd_eng (set_highestCCBlock ccBlock) w
           else w in
  par ← deref (heap w) (Parent cc);
  w ← match CommitCertificate par with
      | Some _ => finalizeBlock (Parent cc) w
      | None => Some w
      end;
  if epoch (eng w) <=? Epoch cc then
    let newEpoch := wrap32 (Epoch cc + 1) in
    let w := enterNewEpoch newEpoch w in
    Some (invoke (EpochManagerSetEpoch newEpoch) w)
  else Some w.

End Engine.

(** ** The loop as a whole *)

Section Loop.
Context {Ext : Type} `{!Collaborators Ext}.

(** Which case of the [select] in [mainLoop] fires on a turn. *)
Inductive Ready :=
| CtxDone
| IncomingReady
| EpochReady (newEpoch : Z).

(** [func (e *DefaultEngine) mainLoop(ctx)]: the turns the loop takes when
    the cases of its [select] fire in the order [sched].  [ctx.Done()]
    makes the loop return; a turn scheduled on an empty queue has nothing
    to receive and is passed over. *)
Fixpoint mainLoop (sched : list Ready) (w : World Ext) : World Ext :=
  match sched with
  | [] => w
  | CtxDone :: _ => w
  | IncomingReady :: rest =>
      match mainLoop_incoming w with
      | Some w' => mainLoop rest w'
      | None => mainLoop rest w
      end
  | EpochReady newEpoch :: rest => mainLoop rest (mainLoop_epoch newEpoch w)
  end.

(** The call the loop makes for a message it has received. *)
Definition dispatched (msg : Msg) : list Call :=
  match msg with
  | MsgProposal p => [ReplicaHandleProposal p]
  | MsgVote v => [ProposerHandleVote v]
  | MsgOther _ => []
  end.

End Loop.

(** ** The specification's wording of the same steps

    Definitions that follow the sentences of the specification rather than
    engine.go, for comparison with the functions above. *)

Section AsSpecified.
Context {Ext : Type}.

(** "walk from X backward to the nearest already-finalized ancestor A":
    the blocks from A's child up to [x], in that order. *)
Fixpoint path_from_finalized (fuel : nat) (h : Heap) (x : ptr)
  : option (list ptr) :=
  match fuel with
  | O => None
  | S f =>
      eb ← h !! x;
      if decide (Status eb = BlockStatusFinalized) then Some []
      else match Parent eb with
           | None => Some [x]
           | Some p => rest ← path_from_finalized f h p; Some (rest ++ [x])
           end
  end.

(** "marking every block on that path Finalized in order from A's child up
    to X" *)
Definition mark_finalized (h : Heap) (path : list ptr) : Heap :=
  foldl (fun h p => alter (set_Status BlockStatusFinalized) p h) h path.

(** "For each newly finalized block, push it onto the outbound
    finalized_blocks stream (non-blocking ...)" *)
Definition push_all (h : Heap) (c : Chan.t BlockRef) (path : list ptr)
  : Chan.t BlockRef :=
  foldl (fun c p => match h !! p with
                    | Some eb => (Chan.try_send c (Block eb)).1
                    | None => c
                    end) c path.

(** [finalize(X)] as the specification has it. *)
Definition finalize_as_specified (X : option ptr) (w : World Ext)
  : option (World Ext) :=
  x ← X;
  b ← deref (heap w) X;
  l ← deref (heap w) (lastFinalizedBlock (eng w));
  if bytes_Compare (Hash b) (Hash l) =? 0 then Some w
  else
    path ← path_from_finalized (S (size (heap w))) (heap w) x;
    let h' := mark_finalized (heap w) path in
    let c' := push_all (heap w) (finalizedBlocks (eng w)) path in
    Some (mkWorld h'
            (set_lastFinalizedBlock X (set_finalizedBlocks c' (eng w)))
            (ext w) (calls w)).

(** "highestCCBlock := B; recompute tip := find_deepest_descendant(B)":
    what the state [w'] after processing the certificate of [B] has to
    satisfy. *)
Definition tip_recomputed_as_specified (B : option ptr) (w' : World Ext)
  : Prop :=
  highestCCBlock (eng w') = B /\
  exists b t d,
    B = Some b /\
    FindDeepestDescendant (S (size (heap w'))) (heap w') b = Some (t, d) /\
    tip (eng w') = Some t.

(** "producers that would block on a full queue drop the message": the
    delivery returns at once and a full queue is left as it was. *)
Definition HandleMessage_as_specified (msg : Msg) (w : World Ext)
  : World Ext * Chan.send_outcome :=
  let '(c, _) := Chan.try_send (incoming (eng w)) msg in
  (upd_eng (set_incoming c) w, Chan.Sent).

End AsSpecified.

(** ** Collaborators and block trees used in the examples *)

(** Strategies, epoch manager and network that do nothing when called. *)
Definition silent : Collaborators unit := {| perform := fun _ w => w |}.

(** A proposer that leads every epoch and so re-anchors the tip on entering
    one (spec, proposer strategy: "set tip via tip =
    find_deepest_descendant(highest_cc_block)"), and an epoch manager that
    remembers the epoch it is told; the other calls do nothing. *)
Definition leading : Collaborators Z :=
  {| perform := fun c w =>
       match c with
       | ProposerEnterNewEpoch _ =>
           match setTip w with
           | Some (_, w') => w'
           | None => w
           end
       | EpochManagerSetEpoch n => mkWorld (heap w) (eng w) n (calls w)
       | _ => w
       end |}.

(** Genesis and a straight chain of three blocks; [b1] never gathered a
    certificate, [b2] and [b3] did. *)
Definition genesis : ExtendedBlock :=
  mkExtendedBlock 100%nat [x00] 0 0 None [1%nat] (Some []) BlockStatusFinalized.
Definition b1 : ExtendedBlock :=
  mkExtendedBlock 101%nat [x01] 1 1 (Some 0%nat) [2%nat] None BlockStatusPending.
Definition b2 : ExtendedBlock :=
  mkExtendedBlock 102%nat [x02] 2 2 (Some 1%nat) [3%nat] (Some [])
                  BlockStatusCommitted.
Definition b3 : ExtendedBlock :=
  mkExtendedBlock 103%nat [x03] 3 3 (Some 2%nat) [] (Some [])
                  BlockStatusCommitted.

Definition tree : Heap :=
  <[0%nat := genesis]> (<[1%nat := b1]> (<[2%nat := b2]> (<[3%nat := b3]> ∅))).

(** The engine of [NewEngine] over [tree], and the world right after
    [NewEngine] with collaborators that do nothing. *)
Definition fresh_engine : DefaultEngine :=
  mkEngine (mkChain (Some 0%nat)) (Chan.make 5000) (Chan.make 5000)
           (Some 0%nat) (Some 0%nat) (Some 0%nat) 0 ∅ ∅ 0.

Definition init_calls : list Call :=
  [ProposerInit; ReplicaInit; EpochManagerInit; NetworkAddMessageHandler].

Definition fresh_world : World unit := mkWorld tree fresh_engine tt init_calls.

(** The same engine once the epoch manager has ticked epoch 5. *)
Definition late_world : World unit :=
  mainLoop_epoch (Collaborators0 := silent) 5 fresh_world.

(** The same engine after 5000 messages were delivered and none taken. *)
Definition full_world : World unit :=
  mkWorld tree
    (set_incoming (Chan.mk (repeat (MsgOther 0) 5000) 5000 []) fresh_engine)
    tt init_calls.

(** The world right after [NewEngine] with the collaborators of
    [leading]. *)
Definition leading_world : World Z := mkWorld tree fresh_engine 0 init_calls.

End consensus.

(* ===================================================================== *)
(** * Package mempool: the message handler *)
(* ===================================================================== *)

Module mempool.
Import common.

(** [common.ChannelIDEnum] is a byte. *)
Definition ChannelIDEnum := Byte.byte.

(** [type mempoolTransaction struct { rawTransaction common.Bytes }] *)
Record mempoolTransaction := mkTx { rawTransaction : Bytes }.

(** [types.Message.Content] is an [interface{}]: the dynamic types that
    matter to the handler are [*mempoolTransaction], the value type
    [mempoolTransaction] (what [ParseMessage] stores), and anything else. *)
Inductive Content :=
| ContentTxPointer (tx : mempoolTransaction)
| ContentTxValue (tx : mempoolTransaction)
| ContentOther (tag : nat).

(** [types.Message] *)
Record Message := mkMessage {
  PeerID : string;
  ChannelID : ChannelIDEnum;
  Content_of : Content
}.

(** Go [error] values the handler can return. *)
Inductive error :=
| InvalidChannel (id : ChannelIDEnum)
| MempoolError (code : nat).

(** How a call ended: it returned, or it panicked. *)
Inductive outcome (A : Type) :=
| Returned (a : A)
| Panicked.
Arguments Returned {A} _.
Arguments Panicked {A}.

(** The mempool behind the handler and the channel constant, both declared
    outside the files verified here: the pool's state, its
    [ProcessTransaction], the decoder [rlp.DecodeBytes] composed with
    [DataResponse.Payload], and [common.ChannelIDTransaction]. *)
Class Backend (Mempool : Type) := {
  ProcessTransaction :
    mempoolTransaction -> Mempool -> Mempool * option error;
  decode_payload : Bytes -> Bytes;
  ChannelIDTransaction : ChannelIDEnum
}.

(** The pool and the record of the [ProcessTransaction] calls made on it,
    oldest first. *)
Record State (Mempool : Type) := mkState {
  pool : Mempool;
  processed : list mempoolTransaction
}.
Arguments mkState {Mempool} _ _.
Arguments pool {Mempool} _.
Arguments processed {Mempool} _.

Section Handler.
Context {Mempool : Type} `{!Backend Mempool}.

(** [GetChannelIDs] *)
Definition GetChannelIDs : list ChannelIDEnum := [ChannelIDTransaction].

(** [ParseMessage]: never fails. *)
Definition ParseMessage (peerID : string) (channelID : ChannelIDEnum)
    (rawMessageBytes : Bytes) : Message * option error :=
  let mptx := mkTx (decode_payload rawMessageBytes) in
  (mkMessage peerID channelID (ContentTxValue mptx), None).

(** [func (mmp *MempoolMessageHandler) HandleMessage(message) error] *)
Definition HandleMessage (message : Message) (s : State Mempool)
  : outcome (option error) * State Mempool :=
  if negb (bool_decide (ChannelID message = ChannelIDTransaction)) then
    (Returned (Some (InvalidChannel (ChannelID message))), s)
  else
    match Content_of message with
    | ContentTxPointer mptx =>
        let '(p, err) := ProcessTransaction mptx (pool s) in
        (Returned err, mkState p (processed s ++ [mptx]))
    | _ => (Panicked, s)
    end.

End Handler.

(** A pool for the examples: the list of raw transactions it accepted;
    a transaction already present is refused. *)
Definition list_pool : Backend (list Bytes) :=
  {| ProcessTransaction := fun tx p =>
       if bool_decide (rawTransaction tx ∈ p)
       then (p, Some (MempoolError 1))
       else (p ++ [rawTransaction tx], None);
     decode_payload := fun raw => raw;
     ChannelIDTransaction := x05 |}.

End mempool.

(* ===================================================================== *)
(** * Package rpc: BroadcastRawTransaction *)
(* ===================================================================== *)

Module rpc.
Import common.

(** ** [encoding/hex] *)

Inductive hex_error :=
| ErrLength
| InvalidByteError (c : ascii).

(** [fromHexChar]: the value of a hexadecimal digit, either case. *)
Definition fromHexChar (c : ascii) : option N :=
  let n := N_of_ascii c in
  if ((48 <=? n) && (n <=? 57))%N then Some (n - 48)%N
  else if ((97 <=? n) && (n <=? 102))%N then Some (n - 97 + 10)%N
  else if ((65 <=? n) && (n <=? 70))%N then Some (n - 65 + 10)%N
  else None.

Definition byte_of_nibbles (a b : N) : Byte.byte :=
  byte_of_ascii (ascii_of_N (a * 16 + b)).

(** [hex.DecodeString]: the bytes decoded before the first problem, and the
    problem if there is one.  An invalid character is reported before an odd
    length. *)
Fixpoint DecodeString (s : string) : Bytes * option hex_error :=
  match s with
  | EmptyString => ([], None)
  | String c EmptyString =>
      match fromHexChar c with
      | None => ([], Some (InvalidByteError c))
      | Some _ => ([], Some ErrLength)
      end
  | String c1 (String c2 rest) =>
      match fromHexChar c1 with
      | None => ([], Some (InvalidByteError c1))
      | Some a =>
          match fromHexChar c2 with
          | None => ([], Some (InvalidByteError c2))
          | Some b =>
              let '(bs, err) := DecodeString rest in
              (byte_of_nibbles a b :: bs, err)
          end
      end
  end.

(** [hex.EncodeToString]: two lower-case digits per byte. *)
Definition hexdigit (n : N) : ascii :=
  if (n <? 10)%N then ascii_of_N (48 + n) else ascii_of_N (97 + (n - 10)).

Fixpoint EncodeToString (src : Bytes) : string :=
  match src with
  | [] => EmptyString
  | v :: rest =>
      String (hexdigit (Byte.to_N v / 16))
        (String (hexdigit (Byte.to_N v mod 16)) (EncodeToString rest))
  end.

(** A hex string: an even number of hexadecimal digits. *)
Fixpoint is_hex_string (s : string) : bool :=
  match s with
  | EmptyString => true
  | String _ EmptyString => false
  | String c1 (String c2 rest) =>
      match fromHexChar c1, fromHexChar c2 with
      | Some _, Some _ => is_hex_string rest
      | _, _ => false
      end
  end.

(** ** The endpoint *)

Inductive error :=
| HexError (e : hex_error)
| MempoolError (code : nat).

Record BroadcastRawTransactionArgs := mkArgs { TxBytes : string }.
Record BroadcastRawTransactionResult := mkResult { TxHash : string }.

(** What the endpoint calls outside the files verified here: the mempool's
    [InsertTransaction], [crypto.Keccak256Hash] and [common.Hash.Hex]. *)
Class Backend (Mempool : Type) := {
  InsertTransaction : Bytes -> Mempool -> Mempool * option error;
  Keccak256Hash : Bytes -> Hash;
  Hex : Hash -> string
}.

(** The pool behind [t.mempool] and the record of the byte strings handed
    to [InsertTransaction], oldest first. *)
Record Server (Mempool : Type) := mkServer {
  mempool_of : Mempool;
  inserted : list Bytes
}.
Arguments mkServer {Mempool} _ _.
Arguments mempool_of {Mempool} _.
Arguments inserted {Mempool} _.

Section Endpoint.
Context {Mempool : Type} `{!Backend Mempool}.

(** [func (t *ThetaRPCServer) BroadcastRawTransaction(r, args, result)
    (err error)]: the error returned, [*result] and the server after the
    call. *)
Definition BroadcastRawTransaction (t : Server Mempool)
    (args : BroadcastRawTransactionArgs)
    (result : BroadcastRawTransactionResult)
  : option error * BroadcastRawTransactionResult * Server Mempool :=
  let '(txBytes, err) := DecodeString (TxBytes args) in
  match err with
  | Some e => (Some (HexError e), result, t)
  | None =>
      let hash := Keccak256Hash txBytes in
      let result := mkResult (Hex hash) in
      let '(m, err) := InsertTransaction txBytes (mempool_of t) in
      (err, result, mkServer m (inserted t ++ [txBytes]))
  end.

End Endpoint.

(** A backend for the examples: the pool is the list of transactions
    inserted, the digest thirty-two copies of the input's length, printed
    as its first byte. *)
Definition toy_digest (b : Bytes) : Hash :=
  repeat (byte_of_ascii (ascii_of_nat (length b))) 32.

Definition list_backend : Backend (list Bytes) :=
  {| InsertTransaction := fun tx p => (p ++ [tx], None);
     Keccak256Hash := toy_digest;
     Hex := fun h => match h with
                     | [] => EmptyString
                     | b :: _ => String (ascii_of_byte b) EmptyString
                     end |}.

End rpc.

(* ===================================================================== *)
(** * Package types: the address helper of the tests *)
(* ===================================================================== *)

Module types.
Import common.

(** A Go string is its bytes. *)
Definition bytes_of_string (s : string) : Bytes :=
  map byte_of_ascii (list_ascii_of_string s).

(** The built-in [copy(dst, src)]: the first [min(len(dst), len(src))]
    elements of [dst] are overwritten, the rest of [dst] stays. *)
Definition copy (dst src : Bytes) : Bytes :=
  firstn (length dst) src ++ skipn (length src) dst.

(** [func getTestAddress(addr string) common.Address] *)
Definition getTestAddress (addr : string) : Address :=
  let address := repeat x00 AddressLength in
  copy address (bytes_of_string addr).

End types.

(* ===================================================================== *)
(** * Package tx: unlocking a wallet from the command line *)
(* ===================================================================== *)

Module tx.
Import common.

(** [wtypes.WalletType] *)
Inductive WalletType :=
| WalletTypeSoft
| WalletTypeCold.

(** Go [error] values: what the wallet or the password prompt reports, and
    the error [coldWalletUnlock] makes itself with [fmt.Errorf]. *)
Inductive error :=
| WalletError (code : nat)
| PasswordError (code : nat)
| NoAddressDetected.

(** What the functions print with [fmt.Printf]. *)
Inductive Printed :=
| FailedToOpenWallet (e : error)
| FailedToUnlockWallet (e : error)
| FailedToListAddresses (e : error)
| NoAddressDetectedMsg
| FailedToGetPassword (e : error)
| FailedToUnlockAddress (a : Address) (e : error).

(** The calls made on the wallet package, on a wallet, on the password
    prompt and on standard output. *)
Inductive Call :=
| CallOpenWallet (cfgPath : string) (ty : WalletType) (encrypted : bool)
| CallUnlock (a : Address) (password : string)
| CallList
| CallGetPassword (prompt : string)
| CallPrintf (msg : Printed).

(** A [*cobra.Command] as far as these functions read it: the values of
    its flags "wallet" and "config"; [cmd.Flag(name)] is nil for a flag
    that was never defined. *)
Record Command := mkCommand {
  flag_wallet : option string;
  flag_config : option string
}.

(** How a call ended: it returned, or it panicked. *)
Inductive outcome (A : Type) :=
| Returned (a : A)
| Panicked.
Arguments Returned {A} _.
Arguments Panicked {A}.

(** The code called from outside this file: [wallet.OpenWallet], the
    methods [Unlock] and [List] of the wallet it returns,
    [utils.GetPassword] and [common.HexToAddress].  [S] is the state they
    work on (key store, device, terminal), [W] a wallet handle.  A Go
    result [(v, err)] is [inl v] when [err] is nil and [inr err]
    otherwise. *)
Class Env (S W : Type) := {
  wallet_OpenWallet : string -> WalletType -> bool -> S -> S * (W + error);
  wallet_Unlock : W -> Address -> string -> S -> S * option error;
  wallet_List : W -> S -> S * (list Address + error);
  utils_GetPassword : string -> S -> S * (string + error);
  common_HexToAddress : string -> Address
}.

(** The outside state and the record of the calls made, oldest first. *)
Record State (S : Type) := mkState {
  env : S;
  trace : list Call
}.
Arguments mkState {S} _ _.
Arguments env {S} _.
Arguments trace {S} _.

(** [common.Address{}] *)
Definition zero_Address : Address := repeat x00 AddressLength.

Section Unlock.
Context {S W : Type} `{!Env S W}.

Definition Result : Type := option W * Address * option error.

Definition record (c : Call) (st : State S) : State S :=
  mkState (env st) (trace st ++ [c]).

Definition with_env (e : S) (st : State S) : State S :=
  mkState e (trace st).

(** [func coldWalletUnlock() (wtypes.Wallet, common.Address, error)] *)
Definition coldWalletUnlock (st : State S) : Result * State S :=
  let st := record (CallOpenWallet EmptyString WalletTypeCold true) st in
  let '(e, r) := wallet_OpenWallet EmptyString WalletTypeCold true (env st) in
  let st := with_env e st in
  match r with
  | inr err =>
      (None, zero_Address, Some err,
       record (CallPrintf (FailedToOpenWallet err)) st)
  | inl wallet =>
      let st := record (CallUnlock zero_Address EmptyString) st in
      let '(e, err) := wallet_Unlock wallet zero_Address EmptyString (env st) in
      let st := with_env e st in
      match err with
      | Some err =>
          (None, zero_Address, Some err,
           record (CallPrintf (FailedToUnlockWallet err)) st)
      | None =>
          let st := record CallList st in
          let '(e, r) := wallet_List wallet (env st) in
          let st := with_env e st in
          match r with
          | inr err =>
              (None, zero_Address, Some err,
               record (CallPrintf (FailedToListAddresses err)) st)
          | inl [] =>
              (None, zero_Address, Some NoAddressDetected,
               record (CallPrintf NoAddressDetectedMsg) st)
          | inl (address :: _) => (Some wallet, address, None, st)
          end
      end
  end.

(** [func softWalletUnlock(cfgPath, addressStr string)
    (wtypes.Wallet, common.Address, error)] *)
Definition softWalletUnlock (cfgPath addressStr : string) (st : State S)
  : Result * State S :=
  let st := record (CallOpenWallet cfgPath WalletTypeSoft true) st in
  let '(e, r) := wallet_OpenWallet cfgPath WalletTypeSoft true (env st) in
  let st := with_env e st in
  match r with
  | inr err =>
      (None, zero_Address, Some err,
       record (CallPrintf (FailedToOpenWallet err)) st)
  | inl wallet =>
      let prompt := "Please enter password: "%string in
      let st := record (CallGetPassword prompt) st in
      let '(e, r) := utils_GetPassword prompt (env st) in
      let st := with_env e st in
      match r with
      | inr err =>
          (None, zero_Address, Some err,
           record (CallPrintf (FailedToGetPassword err)) st)
      | inl password =>
          let address := common_HexToAddress addressStr in
          let st := record (CallUnlock address password) st in
          let '(e, err) := wallet_Unlock wallet address password (env st) in
          let st := with_env e st in
          match err with
          | Some err =>
              (None, zero_Address, Some err,
               record (CallPrintf (FailedToUnlockAddress address err)) st)
          | None => (Some wallet, address, None, st)
          end
      end
  end.

(** [func getWalletType(cmd *cobra.Command) (walletType wtypes.WalletType)] *)
Definition getWalletType (cmd : Command) : outcome WalletType :=
  match flag_wallet cmd with
  | None => Panicked
  | Some walletTypeStr =>
      if String.eqb walletTypeStr "nano" then Returned WalletTypeCold
      else Returned WalletTypeSoft
  end.

(** [func walletUnlock(cmd *cobra.Command, addressStr string)
    (wtypes.Wallet, common.Address, error)] *)
Definition walletUnlock (cmd : Command) (addressStr : string) (st : State S)
  : outcome Result * State S :=
  match getWalletType cmd with
  | Panicked => (Panicked, st)
  | Returned WalletTypeSoft =>
      match flag_config cmd with
      | None => (Panicked, st)
      | Some cfgPath =>
          let '(r, st) := softWalletUnlock cfgPath addressStr st in
          (Returned r, st)
      end
  | Returned WalletTypeCold =>
      let '(r, st) := coldWalletUnlock st in
      (Returned r, st)
  end.

End Unlock.

(** A key store for the examples: the state is the list of addresses the
    device holds; a soft wallet opens when a configuration path is given, a
    cold wallet always; unlocking needs the password "pw" for a soft
    wallet and nothing for a cold one (handle [1]). *)
Definition desk : Env (list Address) nat :=
  {| wallet_OpenWallet := fun cfg ty _ s =>
       match ty with
       | WalletTypeCold => (s, inl 1%nat)
       | WalletTypeSoft =>
           if String.eqb cfg EmptyString then (s, inr (WalletError 1))
           else (s, inl 0%nat)
       end;
     wallet_Unlock := fun w a password s =>
       if (w =? 1)%nat then (s, None)
       else if String.eqb password "pw" then (s, None)
       else (s, Some (WalletError 2));
     wallet_List := fun w s => (s, inl s);
     utils_GetPassword := fun _ s => (s, inl "pw"%string);
     common_HexToAddress := fun a => types.getTestAddress a |}.

End tx.

(* ===================================================================== *)
(** * Properties *)
(* ===================================================================== *)

(** ** Bytes and channels *)

Section BytesFacts.
Import common.

Lemma byte_to_N_inj (x y : Byte.byte) : Byte.to_N x = Byte.to_N y -> x = y.
Proof.
  intros E.
  assert (Hs : Some x = Some y)
    by (rewrite <- (Byte.of_to_N x), <- (Byte.of_to_N y); now rewrite E).
  now inversion Hs.
Qed.

(** [bytes.Compare(a, b) == 0] exactly when the two slices hold the same
    bytes. *)
Lemma bytes_Compare_eq (a b : Bytes) : bytes_Compare a b = 0 <-> a = b.
Proof.
  revert b; induction a as [|x a IH]; intros [|y b]; simpl; try easy.
  destruct (N.compare_spec (Byte.to_N x) (Byte.to_N y)) as [E|L|L].
  - apply byte_to_N_inj in E; subst y. rewrite IH.
    split; [intros ->; reflexivity | intros [= ->]; reflexivity].
  - split; [discriminate | intros [= -> _]; lia].
  - split; [discriminate | intros [= -> _]; lia].
Qed.

Lemma bytes_Compare_eqb_true (a b : Bytes) :
  a = b -> (bytes_Compare a b =? 0) = true.
Proof. intros E. apply Z.eqb_eq. now apply bytes_Compare_eq. Qed.

Lemma bytes_Compare_eqb_false (a b : Bytes) :
  a <> b -> (bytes_Compare a b =? 0) = false.
Proof. intros E. apply Z.eqb_neq. now rewrite bytes_Compare_eq. Qed.

Lemma zero_Hash_length : length zero_Hash = 32%nat.
Proof. reflexivity. Qed.

Lemma zero_Hash_all_zero : List.Forall (fun b => b = x00) zero_Hash.
Proof.
  unfold zero_Hash. apply List.Forall_forall. intros b Hb.
  now apply repeat_spec in Hb.
Qed.

Lemma IsEmpty_true (h : Hash) : IsEmpty h = true <-> h = zero_Hash.
Proof. unfold IsEmpty. apply bool_decide_eq_true. Qed.

Lemma wrap32_small (z : Z) : 0 <= z < 2 ^ 32 -> wrap32 z = z.
Proof. intros Hz. unfold wrap32. now apply Z.mod_small. Qed.

End BytesFacts.

Section ChanFacts.
Context {A : Type}.
Implicit Types (c : Chan.t A) (v : A).

Lemma try_send_full c v : Chan.full c = true -> Chan.try_send c v = (c, false).
Proof. unfold Chan.try_send. now intros ->. Qed.

Lemma try_send_room c v :
  Chan.full c = false ->
  Chan.try_send c v
  = (Chan.mk (Chan.buf c ++ [v]) (Chan.cap c) (Chan.sendq c), true).
Proof. unfold Chan.try_send. now intros ->. Qed.

Lemma send_full c v :
  Chan.full c = true ->
  Chan.send c v
  = (Chan.mk (Chan.buf c) (Chan.cap c) (Chan.sendq c ++ [v]), Chan.Parked).
Proof. unfold Chan.send. now intros ->. Qed.

Lemma send_room c v :
  Chan.full c = false ->
  Chan.send c v
  = (Chan.mk (Chan.buf c ++ [v]) (Chan.cap c) (Chan.sendq c), Chan.Sent).
Proof. unfold Chan.send. now intros ->. Qed.

(** A non-blocking send never lengthens a full buffer and never touches
    the parked senders. *)
Lemma try_send_buf c v :
  Chan.buf (Chan.try_send c v).1
  = if Chan.full c then Chan.buf c else Chan.buf c ++ [v].
Proof. unfold Chan.try_send. now destruct (Chan.full c). Qed.

End ChanFacts.

(** ** Block hashes (core/block.go) *)

Section CoreFacts.
Import common core.
Context `{Primitives}.

Lemma set_hash_same (h : BlockHeader) : set_hash (hash h) h = h.
Proof. now destruct h. Qed.

Lemma encode_set_hash (v : Hash) (h : BlockHeader) :
  encode (set_hash v h) = encode h.
Proof. reflexivity. Qed.

(** What the first call of [Hash] returns: the cache is empty, so the
    hash is computed. *)
Lemma BlockHeader_Hash_value (hd : BlockHeader) :
  hash hd = zero_Hash ->
  (BlockHeader_Hash (Some hd)).1 = crypto_Keccak256Hash (encode hd).
Proof.
  intros E. unfold BlockHeader_Hash; cbn [fst].
  rewrite (proj2 (IsEmpty_true _) E). reflexivity.
Qed.

(** The receiver after the call carries the returned value in its cache and
    is otherwise unchanged. *)
Lemma BlockHeader_Hash_caches (hd : BlockHeader) :
  (BlockHeader_Hash (Some hd)).2
  = Some (set_hash (BlockHeader_Hash (Some hd)).1 hd).
Proof.
  unfold BlockHeader_Hash; cbn [fst snd].
  destruct (IsEmpty (hash hd)); cbn [hash set_hash].
  - reflexivity.
  - now rewrite set_hash_same.
Qed.

(** Hashing twice gives the same value, whatever the cache held. *)
Lemma BlockHeader_Hash_stable (h : option BlockHeader) :
  (BlockHeader_Hash (BlockHeader_Hash h).2).1 = (BlockHeader_Hash h).1 /\
  (BlockHeader_Hash (BlockHeader_Hash h).2).2 = (BlockHeader_Hash h).2.
Proof.
  destruct h as [hd|]; [|now split].
  unfold BlockHeader_Hash; cbn [fst snd].
  destruct (IsEmpty (hash hd)) eqn:E1.
  - cbn [hash set_hash].
    destruct (IsEmpty (crypto_Keccak256Hash (encode hd))) eqn:E2;
      cbn [hash set_hash]; now split.
  - rewrite E1. now split.
Qed.

Lemma BlockHeader_Hash_length (h : option BlockHeader) :
  (forall hd, h = Some hd -> length (hash hd) = 32%nat) ->
  length (BlockHeader_Hash h).1 = 32%nat.
Proof.
  destruct h as [hd|]; intros Hl; [|reflexivity].
  unfold BlockHeader_Hash; cbn [fst].
  destruct (IsEmpty (hash hd)); cbn [hash set_hash].
  - apply crypto_Keccak256Hash_length.
  - now apply Hl.
Qed.

(** A filled cache is returned as it is, whatever the fields hold by
    then: a header whose fields are assigned after its first [Hash] keeps
    its first hash. *)
Lemma BlockHeader_Hash_returns_cache (hd : BlockHeader) :
  IsEmpty (hash hd) = false ->
  BlockHeader_Hash (Some hd) = (hash hd, Some hd).
Proof. intros E. unfold BlockHeader_Hash. now rewrite E. Qed.

(** The promoted method reads the header only: the transactions are
    carried along untouched. *)
Lemma Block_Hash_unfold (h : option BlockHeader) (txs : list Bytes) :
  Block_Hash (Some (mkBlock h txs))
  = Some ((BlockHeader_Hash h).1, Some (mkBlock (BlockHeader_Hash h).2 txs)).
Proof.
  unfold Block_Hash; cbn [Block_BlockHeader Txs].
  now destruct (BlockHeader_Hash h).
Qed.

(** C6, as amended. For every block header whose hash has not been
    computed yet (its cache is empty, as in every newly built header),
    [Hash] returns the keccak-256 of the encoding of the header fields only
    (the value does not depend on the transaction list of the block
    carrying the header), which is 32 bytes long, and leaves it in the
    header's cache.  For every header, whatever its cache holds, two calls
    of [Hash] return identical values and the second call changes nothing
    more; a header whose cache is filled gets the cached value back
    unchanged, whatever its fields hold by then; and the value is 32 bytes
    long whenever the cache field is, as its type has it. *)
Theorem BlockHeader_Hash_first_call_keccak_then_cached
    (hd : BlockHeader) (txs1 txs2 : list Bytes) :
  hash hd = zero_Hash ->
  let first := BlockHeader_Hash (Some hd) in
  let second := BlockHeader_Hash first.2 in
  first.1 = crypto_Keccak256Hash (encode hd) /\
  Block_Hash (Some (mkBlock (Some hd) txs1))
    = Some (first.1, Some (mkBlock first.2 txs1)) /\
  fst <$> Block_Hash (Some (mkBlock (Some hd) txs1))
    = fst <$> Block_Hash (Some (mkBlock (Some hd) txs2)) /\
  first.2 = Some (set_hash first.1 hd) /\
  second.1 = first.1 /\
  second.2 = first.2 /\
  length first.1 = 32%nat /\
  (forall h : option BlockHeader,
     (BlockHeader_Hash (BlockHeader_Hash h).2).1 = (BlockHeader_Hash h).1 /\
     (BlockHeader_Hash (BlockHeader_Hash h).2).2 = (BlockHeader_Hash h).2) /\
  (forall cached : BlockHeader,
     IsEmpty (hash cached) = false ->
     BlockHeader_Hash (Some cached) = (hash cached, Some cached)) /\
  (forall h : option BlockHeader,
     (forall hd', h = Some hd' -> length (hash hd') = 32%nat) ->
     length (BlockHeader_Hash h).1 = 32%nat).
Proof.
  intros Hfresh first second.
  assert (Hv : first.1 = crypto_Keccak256Hash (encode hd))
    by (apply BlockHeader_Hash_value; exact Hfresh).
  split_and!.
  - exact Hv.
  - apply Block_Hash_unfold.
  - now rewrite !Block_Hash_unfold.
  - apply BlockHeader_Hash_caches.
  - apply (BlockHeader_Hash_stable (Some hd)).
  - apply (BlockHeader_Hash_stable (Some hd)).
  - rewrite Hv. apply crypto_Keccak256Hash_length.
  - apply BlockHeader_Hash_stable.
  - apply BlockHeader_Hash_returns_cache.
  - apply BlockHeader_Hash_length.
Qed.

(** C8. [Hash] on a nil [*BlockHeader] returns the all-zero hash, and so
    does [Hash] on an [ExtendedBlock] whose embedded [*Block] is nil; both
    calls return (neither panics) and leave their receiver as it was.  The
    all-zero hash is thirty-two bytes, each of them zero. *)
Theorem Hash_of_nil_is_zero :
  BlockHeader_Hash None = (zero_Hash, None) /\
  (forall children status,
     ExtendedBlock_Hash (Some (mkExtendedBlock None children status))
     = Some (zero_Hash, Some (mkExtendedBlock None children status))) /\
  (forall txs children status,
     ExtendedBlock_Hash
       (Some (mkExtendedBlock (Some (mkBlock None txs)) children status))
     = Some (zero_Hash,
             Some (mkExtendedBlock (Some (mkBlock None txs)) children status))) /\
  length zero_Hash = 32%nat /\
  List.Forall (fun b => b = x00) zero_Hash.
Proof.
  repeat split; try reflexivity.
  apply zero_Hash_all_zero.
Qed.

End CoreFacts.

(** The header a proposer has just filled in: its hash is the digest of its
    encoding, under the stand-in primitives. *)
Lemma BlockHeader_Hash_first_call_keccak_then_cached_witness :
  core.hash core.sample_header = common.zero_Hash /\
  (core.BlockHeader_Hash (H := core.toy_Primitives)
     (Some core.sample_header)).1
  = core.toy_digest (core.encode (H := core.toy_Primitives) core.sample_header).
Proof.
  assert (Hfresh : core.hash core.sample_header = common.zero_Hash)
    by reflexivity.
  split; [exact Hfresh|].
  apply (BlockHeader_Hash_first_call_keccak_then_cached
           (H := core.toy_Primitives) core.sample_header [] [] Hfresh).
Defined.

(** C6 as stated fails.  A header is built, [Hash] is called on it, and its
    epoch is then assigned 9 (every field of a header is exported): [Hash]
    on that header is not the digest of the encoding of its fields, it is
    still the digest of the fields the header had at the first call. *)
Lemma BlockHeader_Hash_stale_counterexample :
  (core.BlockHeader_Hash (H := core.toy_Primitives)
     (Some core.sample_header)).2 = Some core.hashed_header /\
  core.reassigned_header = core.set_Epoch 9 core.hashed_header /\
  (core.BlockHeader_Hash (H := core.toy_Primitives)
     (Some core.reassigned_header)).1
  <> core.crypto_Keccak256Hash (Primitives := core.toy_Primitives)
       (core.encode (H := core.toy_Primitives) core.reassigned_header) /\
  (core.BlockHeader_Hash (H := core.toy_Primitives)
     (Some core.reassigned_header)).1
  = core.crypto_Keccak256Hash (Primitives := core.toy_Primitives)
      (core.encode (H := core.toy_Primitives) core.sample_header).
Proof.
  split_and!.
  - reflexivity.
  - reflexivity.
  - intros E. vm_compute in E. discriminate.
  - vm_compute. reflexivity.
Qed.

(** ** The engine (consensus/engine.go) *)

Section EngineFacts.
Import common blockchain consensus.
Context {Ext : Type} `{!Collaborators Ext}.
Implicit Types (w : World Ext) (c : Call).

Lemma invoke_calls c w : calls (invoke c w) = calls w ++ [c].
Proof. reflexivity. Qed.

Lemma invoke_eng c w : eng (invoke c w) = eng (perform c w).
Proof. reflexivity. Qed.

Lemma invoke_heap c w : heap (invoke c w) = heap (perform c w).
Proof. reflexivity. Qed.

(** A call that leaves a field of the engine alone, seen through
    [invoke]. *)
Lemma invoke_frame {A} (f : DefaultEngine -> A) c w :
  (forall w0, f (eng (perform c w0)) = f (eng w0)) ->
  f (eng (invoke c w)) = f (eng w).
Proof. intros Hf. rewrite invoke_eng. apply Hf. Qed.

Lemma enterNewEpoch_unfold n w :
  enterNewEpoch n w
  = invoke (ReplicaEnterNewEpoch n)
      (invoke (ProposerEnterNewEpoch n) (upd_eng (set_epoch n) w)).
Proof. reflexivity. Qed.

(** [setTip] assigns [tip] and nothing else. *)
Lemma setTip_frame w w' (r : option ptr) :
  setTip w = Some (r, w') ->
  tip (eng w') = r /\
  eng w' = set_tip r (eng w) /\
  heap w' = heap w /\ ext w' = ext w /\ calls w' = calls w.
Proof.
  unfold setTip.
  generalize (FindDeepestDescendant (S (size (heap w))) (heap w)).
  intros find.
  destruct (highestCCBlock (eng w)) as [from|]; cbn; [|discriminate].
  destruct (find from) as [[ret d]|]; cbn; [|discriminate].
  intros [= <- <-]. now split_and!.
Qed.

(** [setTip] is where [tip] is recomputed: it becomes the deepest
    descendant of [highestCCBlock]. *)
Lemma setTip_deepest w w' (r : option ptr) :
  setTip w = Some (r, w') ->
  exists from t d,
    highestCCBlock (eng w) = Some from /\
    FindDeepestDescendant (S (size (heap w))) (heap w) from = Some (t, d) /\
    r = Some t /\ tip (eng w') = Some t.
Proof.
  unfold setTip.
  destruct (highestCCBlock (eng w)) as [from|]; [|cbn; discriminate].
  change (Some from ≫= ?f) with (f from). cbv beta.
  destruct (FindDeepestDescendant (S (size (heap w))) (heap w) from)
    as [[t d]|] eqn:Ef; [|cbn; discriminate].
  change (Some (t, d) ≫= ?f) with (f (t, d)). cbv beta iota.
  intros [= <- <-]. exists from, t, d. split_and!; try reflexivity.
  exact Ef.
Qed.

(** C5. For every call of [finalizeBlock] on a block whose hash equals the
    hash of [lastFinalizedBlock], the call is a no-op: it returns with the
    whole world (engine fields, block tree, the [finalizedBlocks] stream,
    collaborators) exactly as it was. *)
Theorem finalizeBlock_same_hash_noop w (X : option ptr) (b l : ExtendedBlock) :
  deref (heap w) X = Some b ->
  deref (heap w) (lastFinalizedBlock (eng w)) = Some l ->
  Hash b = Hash l ->
  finalizeBlock X w = Some w.
Proof.
  intros Hb Hl E. unfold finalizeBlock.
  rewrite Hb; cbn. rewrite Hl; cbn.
  now rewrite bytes_Compare_eqb_true.
Qed.

(** C1, as amended. For every call of [finalizeBlock] on a block X whose
    hash differs from the hash of [lastFinalizedBlock], the engine sets
    [lastFinalizedBlock := X] and makes one non-blocking push, of X's block
    alone, onto the [finalizedBlocks] stream (appended when the buffer has
    room, dropped when it is full).  No block of the tree is modified, so no
    status changes, nothing else is pushed, and no other field of the
    engine changes. *)
Theorem finalizeBlock_other_hash w (X : option ptr) (b l : ExtendedBlock) :
  deref (heap w) X = Some b ->
  deref (heap w) (lastFinalizedBlock (eng w)) = Some l ->
  Hash b <> Hash l ->
  exists w',
    finalizeBlock X w = Some w' /\
    lastFinalizedBlock (eng w') = X /\
    heap w' = heap w /\
    finalizedBlocks (eng w')
      = (Chan.try_send (finalizedBlocks (eng w)) (Block b)).1 /\
    Chan.buf (finalizedBlocks (eng w'))
      = (if Chan.full (finalizedBlocks (eng w))
         then Chan.buf (finalizedBlocks (eng w))
         else Chan.buf (finalizedBlocks (eng w)) ++ [Block b]) /\
    eng w' = set_finalizedBlocks (finalizedBlocks (eng w'))
               (set_lastFinalizedBlock X (eng w)) /\
    ext w' = ext w /\
    calls w' = calls w.
Proof.
  intros Hb Hl E. unfold finalizeBlock.
  rewrite Hb; cbn. rewrite Hl; cbn.
  rewrite (bytes_Compare_eqb_false _ _ E).
  destruct (Chan.try_send (finalizedBlocks (eng w)) (Block b)) as [c ok] eqn:Ec.
  eexists; split; [reflexivity|].
  cbn. split_and!; try reflexivity.
  change c with (c, ok).1. rewrite <- Ec. apply try_send_buf.
Qed.

(** [finalizeBlock], when it returns, has changed nothing but
    [lastFinalizedBlock] and the [finalizedBlocks] stream. *)
Lemma finalizeBlock_frame w w' (X : option ptr) :
  finalizeBlock X w = Some w' ->
  heap w' = heap w /\ ext w' = ext w /\ calls w' = calls w /\
  highestCCBlock (eng w') = highestCCBlock (eng w) /\
  tip (eng w') = tip (eng w) /\
  epoch (eng w') = epoch (eng w) /\
  incoming (eng w') = incoming (eng w).
Proof.
  unfold finalizeBlock.
  destruct (deref (heap w) X) as [b|]; cbn; [|discriminate].
  destruct (deref (heap w) (lastFinalizedBlock (eng w))) as [l|]; cbn;
    [|discriminate].
  destruct (bytes_Compare (Hash b) (Hash l) =? 0).
  - intros [= <-]. now split_and!.
  - destruct (Chan.try_send _ _) as [c ok]. intros [= <-]. now split_and!.
Qed.

(** The three steps of [processCCBlock]: the state [w1] reached after the
    update of [highestCCBlock] and the finalisation of the parent, and the
    epoch step applied to it.  Neither of the first two steps assigns
    [tip] or [epoch], touches the tree, or calls a collaborator. *)
Lemma processCCBlock_steps w (B : option ptr) (cc hcc par l : ExtendedBlock) :
  deref (heap w) B = Some cc ->
  deref (heap w) (highestCCBlock (eng w)) = Some hcc ->
  deref (heap w) (Parent cc) = Some par ->
  deref (heap w) (lastFinalizedBlock (eng w)) = Some l ->
  exists w1,
    heap w1 = heap w /\ ext w1 = ext w /\ calls w1 = calls w /\
    highestCCBlock (eng w1)
      = (if Height hcc <? Height cc then B else highestCCBlock (eng w)) /\
    tip (eng w1) = tip (eng w) /\
    epoch (eng w1) = epoch (eng w) /\
    processCCBlock B w
      = Some (if epoch (eng w) <=? Epoch cc
              then invoke (EpochManagerSetEpoch (wrap32 (Epoch cc + 1)))
                     (enterNewEpoch (wrap32 (Epoch cc + 1)) w1)
              else w1).
Proof.
  intros HB Hh Hp Hl. unfold processCCBlock.
  rewrite HB; cbn. rewrite Hh; cbn.
  set (w0 := if Height hcc <? Height cc
             then upd_eng (set_highestCCBlock B) w else w).
  assert (H0 : heap w0 = heap w /\ ext w0 = ext w /\ calls w0 = calls w /\
               highestCCBlock (eng w0)
                 = (if Height hcc <? Height cc then B
                    else highestCCBlock (eng w)) /\
               tip (eng w0) = tip (eng w) /\
               epoch (eng w0) = epoch (eng w) /\
               lastFinalizedBlock (eng w0) = lastFinalizedBlock (eng w))
    by (subst w0; destruct (Height hcc <? Height cc); now split_and!).
  destruct H0 as (Hheap & Hext & Hcalls & Hhcc & Htip & Hep & Hlf).
  rewrite Hheap, Hp; cbn.
  destruct (CommitCertificate par) as [cert|].
  - destruct (finalizeBlock (Parent cc) w0) as [w1|] eqn:Ef.
    + destruct (finalizeBlock_frame _ _ _ Ef)
        as (F1 & F2 & F3 & F4 & F5 & F6 & _).
      exists w1. cbn. rewrite F6, Hep.
      split_and!; try congruence. now destruct (_ <=? _).
    + exfalso. revert Ef. unfold finalizeBlock.
      rewrite Hheap, Hp, Hlf, Hl; cbn.
      destruct (_ =? _); [discriminate|].
      now destruct (Chan.try_send _ _).
  - exists w0. cbn. rewrite Hep.
    split_and!; try assumption; try reflexivity. now destruct (_ <=? _).
Qed.

(** C2, as amended. For every newly certified block B on which
    [processCCBlock] is called, if [B.Height] is strictly greater than
    [highestCCBlock.Height] then the engine sets [highestCCBlock := B] and
    does not recompute [tip]: the state handed to the epoch step has the
    new [highestCCBlock] and the old [tip], and when [B.Epoch] is below the
    current epoch (no strategy is notified) that state is the result. *)
Theorem processCCBlock_sets_highestCC_keeps_tip
    w (B : option ptr) (cc hcc par l : ExtendedBlock) :
  deref (heap w) B = Some cc ->
  deref (heap w) (highestCCBlock (eng w)) = Some hcc ->
  deref (heap w) (Parent cc) = Some par ->
  deref (heap w) (lastFinalizedBlock (eng w)) = Some l ->
  Height hcc < Height cc ->
  exists w1,
    highestCCBlock (eng w1) = B /\
    tip (eng w1) = tip (eng w) /\
    processCCBlock B w
      = Some (if epoch (eng w) <=? Epoch cc
              then invoke (EpochManagerSetEpoch (wrap32 (Epoch cc + 1)))
                     (enterNewEpoch (wrap32 (Epoch cc + 1)) w1)
              else w1) /\
    (Epoch cc < epoch (eng w) ->
     exists w', processCCBlock B w = Some w' /\
                highestCCBlock (eng w') = B /\
                tip (eng w') = tip (eng w)).
Proof.
  intros HB Hh Hp Hl Hlt.
  destruct (processCCBlock_steps w B cc hcc par l HB Hh Hp Hl)
    as (w1 & _ & _ & _ & Hhcc & Htip & _ & Hrun).
  rewrite (proj2 (Z.ltb_lt _ _) Hlt) in Hhcc.
  exists w1. split_and!; try assumption.
  intros Hep. exists w1.
  rewrite Hrun, (proj2 (Z.leb_gt _ _) Hep). now split_and!.
Qed.

(** C4. For every newly certified block B on which [processCCBlock] is
    called: if [B.Epoch >= e.epoch], the engine sets [e.epoch] to
    [B.Epoch + 1] (unsigned 32-bit addition), then calls [EnterNewEpoch] of
    the proposer strategy and of the replica strategy and [SetEpoch] of the
    epoch manager with that value, in this order and with nothing called
    in between; the engine's epoch is still that value at return whenever
    these three calls leave the field alone.  If [B.Epoch < e.epoch], the
    epoch is unchanged and neither a strategy nor the epoch manager is
    called. *)
Theorem processCCBlock_epoch
    w (B : option ptr) (cc hcc par l : ExtendedBlock) :
  deref (heap w) B = Some cc ->
  deref (heap w) (highestCCBlock (eng w)) = Some hcc ->
  deref (heap w) (Parent cc) = Some par ->
  deref (heap w) (lastFinalizedBlock (eng w)) = Some l ->
  let n := wrap32 (Epoch cc + 1) in
  (0 <= Epoch cc < 2 ^ 32 - 1 -> n = Epoch cc + 1) /\
  (epoch (eng w) <= Epoch cc ->
   exists w1 w',
     processCCBlock B w = Some w' /\
     epoch (eng (upd_eng (set_epoch n) w1)) = n /\
     w' = invoke (EpochManagerSetEpoch n)
            (invoke (ReplicaEnterNewEpoch n)
               (invoke (ProposerEnterNewEpoch n)
                  (upd_eng (set_epoch n) w1))) /\
     calls w' = calls w ++ [ProposerEnterNewEpoch n;
                            ReplicaEnterNewEpoch n;
                            EpochManagerSetEpoch n] /\
     ((forall c w0,
         In c [ProposerEnterNewEpoch n; ReplicaEnterNewEpoch n;
               EpochManagerSetEpoch n] ->
         epoch (eng (perform c w0)) = epoch (eng w0)) ->
      epoch (eng w') = n)) /\
  (Epoch cc < epoch (eng w) ->
   exists w',
     processCCBlock B w = Some w' /\
     epoch (eng w') = epoch (eng w) /\
     calls w' = calls w).
Proof.
  intros HB Hh Hp Hl n.
  destruct (processCCBlock_steps w B cc hcc par l HB Hh Hp Hl)
    as (w1 & _ & _ & Hcalls & _ & _ & Hep1 & Hrun).
  fold n in Hrun. split_and!.
  - intros Hr. subst n. apply wrap32_small. lia.
  - intros Hle. rewrite (proj2 (Z.leb_le _ _) Hle) in Hrun.
    exists w1. eexists. split; [exact Hrun|].
    rewrite enterNewEpoch_unfold. split_and!.
    + reflexivity.
    + reflexivity.
    + rewrite !invoke_calls. cbn [calls upd_eng].
      rewrite Hcalls, <- !app_assoc. reflexivity.
    + intros Hframe.
      rewrite !(invoke_frame epoch)
        by (intros; apply Hframe; cbn; tauto).
      reflexivity.
  - intros Hgt. rewrite (proj2 (Z.leb_gt _ _) Hgt) in Hrun.
    exists w1. now split_and!.
Qed.

(** C9. Right after [NewEngine] returns (its collaborators' [Init] and
    [AddMessageHandler] calls leaving the engine and the tree alone), the
    pointers [highestCCBlock], [lastFinalizedBlock] and [tip] all equal the
    chain root, the epoch is 0, the vote log and the collected-votes map
    are empty, both channels are empty with capacity 5000, and, the root
    being a block of the tree, [lastFinalizedBlock] is an ancestor of (here
    equal to) both [tip] and [highestCCBlock]. *)
Theorem NewEngine_initial_state (c : Chain) (heap0 : Heap) (ext0 : Ext) :
  (forall call w,
     In call [ProposerInit; ReplicaInit; EpochManagerInit;
              NetworkAddMessageHandler] ->
     eng (perform call w) = eng w /\ heap (perform call w) = heap w) ->
  exists w,
    NewEngine (Some c) heap0 ext0 = Some w /\
    highestCCBlock (eng w) = Root c /\
    lastFinalizedBlock (eng w) = Root c /\
    tip (eng w) = Root c /\
    epoch (eng w) = 0 /\
    voteLog (eng w) = ∅ /\
    collectedVotes (eng w) = ∅ /\
    incoming (eng w) = Chan.make 5000 /\
    finalizedBlocks (eng w) = Chan.make 5000 /\
    calls w = [ProposerInit; ReplicaInit; EpochManagerInit;
               NetworkAddMessageHandler] /\
    (is_Some (deref heap0 (Root c)) ->
     forall fuel,
       is_ancestor fuel (heap w) (lastFinalizedBlock (eng w)) (tip (eng w))
         = true /\
       is_ancestor fuel (heap w) (lastFinalizedBlock (eng w))
         (highestCCBlock (eng w)) = true).
Proof.
  intros Hframe.
  assert (Hinit : forall call w,
             In call [ProposerInit; ReplicaInit; EpochManagerInit;
                      NetworkAddMessageHandler] ->
             eng (invoke call w) = eng w /\ heap (invoke call w) = heap w).
  { intros call w Hin. rewrite invoke_eng, invoke_heap. now apply Hframe. }
  unfold NewEngine; cbn [mbind option_bind].
  set (e0 := mkEngine c (Chan.make 5000) (Chan.make 5000) (Root c) (Root c)
                      (Root c) 0 ∅ ∅ 0).
  set (w0 := mkWorld heap0 e0 ext0 []).
  set (w1 := invoke ProposerInit w0).
  set (w2 := invoke ReplicaInit w1).
  set (w3 := invoke EpochManagerInit w2).
  set (w4 := invoke NetworkAddMessageHandler w3).
  destruct (Hinit ProposerInit w0 ltac:(cbn; tauto)) as [E1 G1].
  destruct (Hinit ReplicaInit w1 ltac:(cbn; tauto)) as [E2 G2].
  destruct (Hinit EpochManagerInit w2 ltac:(cbn; tauto)) as [E3 G3].
  destruct (Hinit NetworkAddMessageHandler w3 ltac:(cbn; tauto)) as [E4 G4].
  assert (He : eng w4 = e0)
    by (etransitivity; [exact E4|]; etransitivity; [exact E3|];
        etransitivity; [exact E2|]; exact E1).
  assert (Hh : heap w4 = heap0)
    by (etransitivity; [exact G4|]; etransitivity; [exact G3|];
        etransitivity; [exact G2|]; exact G1).
  exists w4. rewrite He, Hh.
  split_and!; try reflexivity.
  intros [eb Heb] fuel.
  assert (Ha : is_ancestor fuel heap0 (Root c) (Root c) = true).
  { destruct fuel; cbn; rewrite Heb; now rewrite decide_True. }
  now split.
Qed.

(** C3, as amended. For every inbound message delivered while the engine's
    incoming queue is full, the producer blocks in the send: the call does
    not complete, the buffered messages are left as they are, and the
    message is not dropped but waits with the parked senders; with no
    earlier sender parked, it enters the queue as soon as the engine takes
    the next message off it. *)
Theorem HandleMessage_full_blocks w (msg : Msg) :
  Chan.full (incoming (eng w)) = true ->
  let q := incoming (eng w) in
  HandleMessage msg w
    = (upd_eng (set_incoming
                  (Chan.mk (Chan.buf q) (Chan.cap q) (Chan.sendq q ++ [msg])))
               w,
       Chan.Parked) /\
  (forall v rest,
     Chan.buf q = v :: rest -> Chan.sendq q = [] ->
     Chan.recv (incoming (eng (HandleMessage msg w).1))
       = Some (v, Chan.mk (rest ++ [msg]) (Chan.cap q) [])).
Proof.
  intros Hfull q. unfold HandleMessage. fold q.
  rewrite (send_full q msg Hfull). split; [reflexivity|].
  intros v rest Hb Hs. cbn. unfold Chan.recv; cbn.
  now rewrite Hb, Hs.
Qed.

(** With room in the queue the message is appended and the call returns. *)
Lemma HandleMessage_room w (msg : Msg) :
  Chan.full (incoming (eng w)) = false ->
  let q := incoming (eng w) in
  HandleMessage msg w
    = (upd_eng (set_incoming
                  (Chan.mk (Chan.buf q ++ [msg]) (Chan.cap q) (Chan.sendq q)))
               w,
       Chan.Sent).
Proof.
  intros Hroom q. unfold HandleMessage. fold q.
  now rewrite (send_room q msg Hroom).
Qed.

End EngineFacts.

(** ** The engine on the example trees *)

Section EngineExamples.
Import common blockchain consensus.

(** The example worlds are states the engine reaches. *)
Lemma fresh_world_reached :
  NewEngine (Collaborators0 := silent) (Some (mkChain (Some 0%nat))) tree tt
    = Some fresh_world /\
  NewEngine (Collaborators0 := leading) (Some (mkChain (Some 0%nat))) tree 0
    = Some leading_world.
Proof. split; reflexivity. Qed.

Lemma full_world_reached :
  N.iter 5000 (fun w => (HandleMessage (MsgOther 0) w).1) fresh_world
    = full_world.
Proof. vm_compute. reflexivity. Qed.

(** C5, at genesis: finalising the block that is already the last
    finalized one changes nothing. *)
Lemma finalizeBlock_same_hash_noop_witness :
  deref (heap fresh_world) (Some 0%nat) = Some genesis /\
  finalizeBlock (Some 0%nat) fresh_world = Some fresh_world.
Proof.
  split; [reflexivity|].
  apply (finalizeBlock_same_hash_noop fresh_world (Some 0%nat) genesis genesis);
    reflexivity.
Defined.

(** C1 as stated fails. On the chain genesis, b1, b2, b3 with genesis the
    last finalized block, finalising b2 should mark b1 and b2 Finalized and
    publish both; engine.go leaves b1 Pending and b2 Committed and
    publishes b2 only. *)
Lemma finalizeBlock_walk_counterexample :
  finalizeBlock (Some 2%nat) fresh_world
    <> finalize_as_specified (Some 2%nat) fresh_world /\
  (exists w',
     finalizeBlock (Some 2%nat) fresh_world = Some w' /\
     Status <$> heap w' !! 1%nat = Some BlockStatusPending /\
     Status <$> heap w' !! 2%nat = Some BlockStatusCommitted /\
     Chan.buf (finalizedBlocks (eng w')) = [102%nat] /\
     lastFinalizedBlock (eng w') = Some 2%nat) /\
  (exists w'',
     finalize_as_specified (Some 2%nat) fresh_world = Some w'' /\
     Status <$> heap w'' !! 1%nat = Some BlockStatusFinalized /\
     Status <$> heap w'' !! 2%nat = Some BlockStatusFinalized /\
     Chan.buf (finalizedBlocks (eng w'')) = [101%nat; 102%nat]).
Proof.
  split_and!.
  - intros E.
    apply (f_equal (fun r => Chan.buf <$> (finalizedBlocks <$> (eng <$> r))))
      in E.
    vm_compute in E. discriminate.
  - eexists. split; [vm_compute; reflexivity|].
    split_and!; vm_compute; reflexivity.
  - eexists. split; [vm_compute; reflexivity|].
    split_and!; vm_compute; reflexivity.
Qed.

(** C1 as amended, on the same input. *)
Lemma finalizeBlock_other_hash_witness :
  Hash b2 <> Hash genesis /\
  exists w',
    finalizeBlock (Some 2%nat) fresh_world = Some w' /\
    lastFinalizedBlock (eng w') = Some 2%nat /\
    heap w' = heap fresh_world /\
    Chan.buf (finalizedBlocks (eng w')) = [102%nat].
Proof.
  assert (Hne : Hash b2 <> Hash genesis) by discriminate.
  split; [exact Hne|].
  destruct (finalizeBlock_other_hash fresh_world (Some 2%nat) b2 genesis
              eq_refl eq_refl Hne)
    as (w' & Hrun & Hlast & Hheap & _ & Hbuf & _).
  exists w'. split_and!; assumption.
Defined.

(** C2 as stated fails. The engine, at epoch 5 with [highestCCBlock] and
    [tip] at genesis, processes the certificate of b2 (height 2, epoch 2):
    [highestCCBlock] becomes b2, and [tip] stays at genesis although the
    deepest descendant of b2 is b3. *)
Lemma processCCBlock_tip_counterexample :
  Height genesis < Height b2 /\
  processCCBlock (Collaborators0 := silent) (Some 2%nat) late_world
    = Some (upd_eng (set_highestCCBlock (Some 2%nat)) late_world) /\
  tip (eng (upd_eng (set_highestCCBlock (Some 2%nat)) late_world))
    = Some 0%nat /\
  FindDeepestDescendant (S (size tree)) tree 2%nat = Some (3%nat, 1%nat) /\
  ~ tip_recomputed_as_specified (Some 2%nat)
      (upd_eng (set_highestCCBlock (Some 2%nat)) late_world).
Proof.
  split_and!; try (vm_compute; reflexivity).
  intros (_ & b & t & d & Hb & Hf & Ht).
  injection Hb as <-.
  vm_compute in Hf. vm_compute in Ht. congruence.
Qed.

(** C2 as amended, on the same input. *)
Lemma processCCBlock_sets_highestCC_keeps_tip_witness :
  Height genesis < Height b2 /\
  exists w',
    processCCBlock (Collaborators0 := silent) (Some 2%nat) late_world
      = Some w' /\
    highestCCBlock (eng w') = Some 2%nat /\
    tip (eng w') = Some 0%nat.
Proof.
  assert (Hlt : Height genesis < Height b2) by reflexivity.
  split; [exact Hlt|].
  destruct (processCCBlock_sets_highestCC_keeps_tip
              (Collaborators0 := silent) late_world (Some 2%nat)
              b2 genesis b1 genesis eq_refl eq_refl eq_refl eq_refl Hlt)
    as (w1 & _ & _ & _ & Hlate).
  destruct (Hlate eq_refl) as (w' & Hrun & Hh & Ht).
  exists w'. split_and!; assumption.
Defined.

(** The collaborators of [leading] never assign the engine's epoch. *)
Lemma leading_keeps_epoch (c : Call) (w0 : World Z) :
  epoch (eng (perform (Collaborators := leading) c w0)) = epoch (eng w0).
Proof.
  destruct c; try reflexivity. cbn.
  destruct (setTip w0) as [[r w']|] eqn:E; [|reflexivity].
  apply setTip_frame in E as (_ & -> & _). reflexivity.
Defined.

(** C4, with a proposer that re-anchors the tip when told of an epoch: the
    certificate of b3 (epoch 3) moves the engine from epoch 0 to epoch 4 and
    the three notifications go out in order. *)
Lemma processCCBlock_epoch_witness :
  epoch (eng leading_world) <= Epoch b3 /\
  exists w',
    processCCBlock (Collaborators0 := leading) (Some 3%nat) leading_world
      = Some w' /\
    epoch (eng w') = 4 /\
    calls w' = init_calls ++ [ProposerEnterNewEpoch 4; ReplicaEnterNewEpoch 4;
                              EpochManagerSetEpoch 4].
Proof.
  assert (Hle : epoch (eng leading_world) <= Epoch b3) by discriminate.
  split; [exact Hle|].
  destruct (processCCBlock_epoch (Collaborators0 := leading) leading_world
              (Some 3%nat) b3 genesis b2 genesis
              eq_refl eq_refl eq_refl eq_refl)
    as (_ & Hadv & _).
  destruct (Hadv Hle) as (w1 & w' & Hrun & _ & _ & Hcalls & Hep).
  exists w'. split_and!.
  - exact Hrun.
  - apply Hep. intros c w0 _. apply leading_keeps_epoch.
  - exact Hcalls.
Defined.

(** C9, over the example tree with collaborators that do nothing. *)
Lemma NewEngine_initial_state_witness :
  exists w,
    NewEngine (Collaborators0 := silent) (Some (mkChain (Some 0%nat))) tree tt
      = Some w /\
    tip (eng w) = Some 0%nat /\
    epoch (eng w) = 0.
Proof.
  destruct (NewEngine_initial_state (Collaborators0 := silent)
              (mkChain (Some 0%nat)) tree tt)
    as (w & Hrun & _ & _ & Htip & Hep & _).
  - intros call w _. split; reflexivity.
  - exists w. split_and!; assumption.
Defined.

(** C3 as stated fails. With 5000 messages waiting, delivering one more
    does not return with the message dropped: the producer is parked. *)
Lemma HandleMessage_full_counterexample :
  Chan.full (incoming (eng full_world)) = true /\
  Chan.cap (incoming (eng full_world)) = 5000 /\
  HandleMessage (MsgOther 1) full_world
    <> HandleMessage_as_specified (MsgOther 1) full_world /\
  (HandleMessage (MsgOther 1) full_world).2 = Chan.Parked /\
  Chan.sendq (incoming (eng (HandleMessage (MsgOther 1) full_world).1))
    = [MsgOther 1].
Proof.
  split_and!; try (vm_compute; reflexivity).
  intros E. apply (f_equal snd) in E. vm_compute in E. discriminate.
Qed.

(** C3 as amended, on the same input. *)
Lemma HandleMessage_full_blocks_witness :
  Chan.full (incoming (eng full_world)) = true /\
  (HandleMessage (MsgOther 1) full_world).2 = Chan.Parked.
Proof.
  assert (Hfull : Chan.full (incoming (eng full_world)) = true)
    by (vm_compute; reflexivity).
  split; [exact Hfull|].
  destruct (HandleMessage_full_blocks full_world (MsgOther 1) Hfull)
    as (Hrun & _).
  rewrite Hrun. reflexivity.
Defined.

End EngineExamples.

(** ** The mempool message handler *)

Section MempoolFacts.
Import common mempool.
Context {Mempool : Type} `{!Backend Mempool}.

(** C10. For every message whose [ChannelID] is not
    [ChannelIDTransaction], [HandleMessage] returns an error (it does not
    panic, whatever the content), makes no [ProcessTransaction] call, and
    leaves the mempool as it was. *)
Theorem HandleMessage_wrong_channel (message : Message) (s : State Mempool) :
  ChannelID message <> ChannelIDTransaction ->
  HandleMessage message s
    = (Returned (Some (InvalidChannel (ChannelID message))), s) /\
  (exists err, (HandleMessage message s).1 = Returned (Some err)) /\
  processed (HandleMessage message s).2 = processed s /\
  pool (HandleMessage message s).2 = pool s.
Proof.
  intros Hne.
  assert (E : HandleMessage message s
              = (Returned (Some (InvalidChannel (ChannelID message))), s)).
  { unfold HandleMessage. now rewrite bool_decide_eq_false_2. }
  rewrite E. split_and!; try reflexivity. now eexists.
Qed.

(** On the transaction channel a [*mempoolTransaction] goes to the pool and
    the pool's verdict is returned. *)
Lemma HandleMessage_transaction (message : Message) (s : State Mempool)
    (mptx : mempoolTransaction) :
  ChannelID message = ChannelIDTransaction ->
  Content_of message = ContentTxPointer mptx ->
  HandleMessage message s
    = (Returned (ProcessTransaction mptx (pool s)).2,
       mkState (ProcessTransaction mptx (pool s)).1 (processed s ++ [mptx])).
Proof.
  intros Hc Hm. unfold HandleMessage.
  rewrite bool_decide_eq_true_2 by exact Hc. cbn. rewrite Hm.
  now destruct (ProcessTransaction mptx (pool s)).
Qed.

End MempoolFacts.

(** C10, on a message that arrives on channel 1 while the transaction
    channel is 5. *)
Lemma HandleMessage_wrong_channel_witness :
  x01 <> mempool.ChannelIDTransaction (Backend := mempool.list_pool) /\
  mempool.HandleMessage (Backend0 := mempool.list_pool)
    (mempool.mkMessage EmptyString x01
       (mempool.ContentTxPointer (mempool.mkTx [x0a])))
    (mempool.mkState [] [])
  = (mempool.Returned (Some (mempool.InvalidChannel x01)),
     mempool.mkState [] []).
Proof.
  assert (Hne : x01 <> mempool.ChannelIDTransaction
                         (Backend := mempool.list_pool)) by discriminate.
  split; [exact Hne|].
  apply (HandleMessage_wrong_channel (Backend0 := mempool.list_pool)
           (mempool.mkMessage EmptyString x01
              (mempool.ContentTxPointer (mempool.mkTx [x0a])))
           (mempool.mkState [] []) Hne).
Defined.

(** ** The raw-transaction endpoint *)

Section RpcFacts.
Import common rpc.

(** Induction over a string two characters at a time. *)
Lemma string_pairs_ind (P : string -> Prop) :
  P EmptyString ->
  (forall c, P (String c EmptyString)) ->
  (forall c1 c2 s, P s -> P (String c1 (String c2 s))) ->
  forall s, P s.
Proof.
  intros H0 H1 H2 s.
  assert (Hboth : P s /\ forall c, P (String c s)).
  { induction s as [|c' s [IH1 IH2]].
    - split; [exact H0 | exact H1].
    - split; [apply IH2 | intros c; apply H2, IH1]. }
  apply Hboth.
Qed.

(** [hex.DecodeString] succeeds exactly on the hex strings. *)
Lemma DecodeString_ok_iff (s : string) :
  (DecodeString s).2 = None <-> is_hex_string s = true.
Proof.
  induction s as [|c|c1 c2 s IH] using string_pairs_ind.
  - now split.
  - cbn. destruct (fromHexChar c); now split.
  - cbn. destruct (fromHexChar c1); [|now split].
    destruct (fromHexChar c2); [|now split].
    destruct (DecodeString s) as [bs err]. exact IH.
Qed.

(** Each buffer byte comes from two characters. *)
Lemma DecodeString_length (s : string) :
  is_hex_string s = true ->
  (2 * length (DecodeString s).1)%nat = String.length s.
Proof.
  induction s as [|c|c1 c2 s IH] using string_pairs_ind; cbn.
  - reflexivity.
  - discriminate.
  - destruct (fromHexChar c1); [|discriminate].
    destruct (fromHexChar c2); [|discriminate].
    intros Hs. specialize (IH Hs).
    destruct (DecodeString s) as [bs err]. cbn in *. lia.
Qed.

Lemma decode_encoded_byte (v : Byte.byte) :
  exists a b,
    fromHexChar (hexdigit (Byte.to_N v / 16)) = Some a /\
    fromHexChar (hexdigit (Byte.to_N v mod 16)) = Some b /\
    byte_of_nibbles a b = v.
Proof. destruct v; do 2 eexists; split_and!; vm_compute; reflexivity. Qed.

(** Decoding what [hex.EncodeToString] wrote gives the bytes back. *)
Lemma DecodeString_EncodeToString (src : Bytes) :
  DecodeString (EncodeToString src) = (src, None).
Proof.
  induction src as [|v rest IH]; [reflexivity|].
  destruct (decode_encoded_byte v) as (a & b & Ha & Hb & Hv).
  cbn [EncodeToString DecodeString]. rewrite Ha, Hb, IH, Hv. reflexivity.
Qed.

Context {Mempool : Type} `{!Backend Mempool}.

(** C7. For every hex string argument, [BroadcastRawTransaction] decodes
    it, hands the decoded bytes to the mempool's [InsertTransaction] (once;
    the pool becomes what that call makes of it and the call's error is the
    error returned), and stores in the result the keccak-256 hash of those
    bytes, as [Hash.Hex] prints it. *)
Theorem BroadcastRawTransaction_hex (t : Server Mempool)
    (args : BroadcastRawTransactionArgs)
    (result : BroadcastRawTransactionResult) :
  is_hex_string (TxBytes args) = true ->
  exists txBytes,
    DecodeString (TxBytes args) = (txBytes, None) /\
    BroadcastRawTransaction t args result
      = ((InsertTransaction txBytes (mempool_of t)).2,
         mkResult (Hex (Keccak256Hash txBytes)),
         mkServer (InsertTransaction txBytes (mempool_of t)).1
                  (inserted t ++ [txBytes])).
Proof.
  intros Hs. apply DecodeString_ok_iff in Hs.
  destruct (DecodeString (TxBytes args)) as [txBytes err] eqn:Ed.
  cbn in Hs; subst err.
  exists txBytes. split; [reflexivity|].
  unfold BroadcastRawTransaction. rewrite Ed.
  now destruct (InsertTransaction txBytes (mempool_of t)).
Qed.

(** In particular a client that sends the hex encoding of its transaction
    gets the hash of exactly those bytes. *)
Lemma BroadcastRawTransaction_encoded (t : Server Mempool) (tx : Bytes)
    (result : BroadcastRawTransactionResult) :
  BroadcastRawTransaction t (mkArgs (EncodeToString tx)) result
    = ((InsertTransaction tx (mempool_of t)).2,
       mkResult (Hex (Keccak256Hash tx)),
       mkServer (InsertTransaction tx (mempool_of t)).1 (inserted t ++ [tx])).
Proof.
  unfold BroadcastRawTransaction; cbn [TxBytes].
  rewrite DecodeString_EncodeToString.
  now destruct (InsertTransaction tx (mempool_of t)).
Qed.


End RpcFacts.

(** C7, on the argument [0aff]: the two bytes 0x0a, 0xff reach the pool. *)
Lemma BroadcastRawTransaction_hex_witness :
  rpc.is_hex_string "0aff" = true /\
  rpc.BroadcastRawTransaction (Backend0 := rpc.list_backend)
    (rpc.mkServer [] []) (rpc.mkArgs "0aff") (rpc.mkResult EmptyString)
  = (None,
     rpc.mkResult (rpc.Hex (Backend := rpc.list_backend)
                     (rpc.toy_digest [x0a; xff])),
     rpc.mkServer [[x0a; xff]] [[x0a; xff]]).
Proof.
  assert (Hs : rpc.is_hex_string "0aff" = true) by reflexivity.
  split; [exact Hs|].
  destruct (BroadcastRawTransaction_hex (Backend0 := rpc.list_backend)
              (rpc.mkServer [] []) (rpc.mkArgs "0aff")
              (rpc.mkResult EmptyString) Hs)
    as (txBytes & Hd & Hrun).
  injection Hd as <-. exact Hrun.
Defined.

(* ===================================================================== *)
(** * Further properties of the code *)
(* ===================================================================== *)

(** ** Channels: nothing sent is lost or overtaken *)

Section ChanOrder.
Context {A : Type}.
Implicit Types (c : Chan.t A) (v : A).

Lemma wf_room_no_sender c :
  Chan.wf c -> Chan.full c = false -> Chan.sendq c = [].
Proof.
  intros (_ & _ & Hs) Hroom. destruct (Chan.sendq c) as [|s q]; [reflexivity|].
  rewrite Hs in Hroom by discriminate. discriminate.
Qed.

Lemma full_iff c :
  Chan.full c = true <-> Chan.cap c <= Z.of_nat (length (Chan.buf c)).
Proof. unfold Chan.full. apply Z.leb_le. Qed.

Lemma room_iff c :
  Chan.full c = false <-> Z.of_nat (length (Chan.buf c)) < Chan.cap c.
Proof. unfold Chan.full. apply Z.leb_gt. Qed.

Lemma make_wf (n : Z) : 0 < n -> Chan.wf (Chan.make (A := A) n).
Proof.
  intros Hn. unfold Chan.wf, Chan.make; cbn. split_and!; [lia | lia | easy].
Qed.

Lemma send_pending c v :
  Chan.wf c -> Chan.pending (Chan.send c v).1 = Chan.pending c ++ [v].
Proof.
  intros Hwf. unfold Chan.send, Chan.pending.
  destruct (Chan.full c) eqn:Hf; cbn.
  - now rewrite app_assoc.
  - rewrite (wf_room_no_sender c Hwf Hf). now rewrite !app_nil_r.
Qed.

Lemma send_wf c v : Chan.wf c -> Chan.wf (Chan.send c v).1.
Proof.
  intros Hwf. pose proof Hwf as (Hc & Hl & Hs). unfold Chan.send.
  destruct (Chan.full c) eqn:Hf; unfold Chan.wf; cbn.
  - split_and!; try assumption. intros _. exact Hf.
  - apply room_iff in Hf. rewrite length_app; cbn.
    split_and!; [assumption | lia |].
    intros Hq. exfalso. apply Hq.
    apply wf_room_no_sender; [exact Hwf | now apply room_iff].
Qed.

Lemma try_send_wf c v : Chan.wf c -> Chan.wf (Chan.try_send c v).1.
Proof.
  intros Hwf. pose proof Hwf as (Hc & Hl & Hs). unfold Chan.try_send.
  destruct (Chan.full c) eqn:Hf; [exact Hwf|].
  unfold Chan.wf; cbn. apply room_iff in Hf. rewrite length_app; cbn.
  split_and!; [assumption | lia |].
  intros Hq. exfalso. apply Hq.
  apply wf_room_no_sender; [exact Hwf | now apply room_iff].
Qed.

Lemma recv_empty c : Chan.buf c = [] -> Chan.recv c = None.
Proof. unfold Chan.recv. now intros ->. Qed.

Lemma recv_pending c :
  Chan.wf c -> Chan.pending c <> [] ->
  exists v c',
    Chan.recv c = Some (v, c') /\
    Chan.pending c = v :: Chan.pending c' /\
    Chan.wf c'.
Proof.
  intros (Hc & Hl & Hs) Hne. unfold Chan.recv, Chan.pending in *.
  destruct (Chan.buf c) as [|v rest] eqn:Hb.
  - exfalso. cbn in Hne. apply Hs in Hne. apply full_iff in Hne.
    rewrite Hb in Hne. cbn in Hne. lia.
  - destruct (Chan.sendq c) as [|s q] eqn:Hq.
    + do 2 eexists. split; [reflexivity|]. unfold Chan.wf; cbn.
      split_and!; [reflexivity | assumption | cbn in Hl; lia | easy].
    + do 2 eexists. split; [reflexivity|]. unfold Chan.wf; cbn.
      assert (Hfull : Chan.full c = true) by (apply Hs; discriminate).
      apply full_iff in Hfull. rewrite Hb in Hfull.
      rewrite length_app; cbn in *.
      split_and!.
      * now rewrite <- app_assoc.
      * assumption.
      * lia.
      * intros _. apply Z.leb_le. cbn. rewrite length_app; cbn. lia.
Qed.

End ChanOrder.

(** ** The engine: queue, loop, certificates *)

Section EngineMore.
Import common blockchain consensus.
Context {Ext : Type} `{!Collaborators Ext}.
Implicit Types (w : World Ext) (c : Call).

Lemma World_eta w : mkWorld (heap w) (eng w) (ext w) (calls w) = w.
Proof. now destruct w. Qed.

(** The epoch step of [processCCBlock] leaves alone every field that its
    three calls leave alone. *)
Lemma epoch_step_frame {B} (f : DefaultEngine -> B) (b : bool) (n : Z) w1 :
  (forall e, f (set_epoch n e) = f e) ->
  (forall c w0, f (eng (perform c w0)) = f (eng w0)) ->
  f (eng (if b
          then invoke (EpochManagerSetEpoch n) (enterNewEpoch n w1)
          else w1))
  = f (eng w1).
Proof.
  intros Hset Hcall. destruct b; [|reflexivity].
  rewrite enterNewEpoch_unfold. repeat (rewrite invoke_eng, Hcall).
  cbn. apply Hset.
Qed.

Lemma epoch_step_heap (b : bool) (n : Z) w1 :
  (forall c w0, heap (perform c w0) = heap w0) ->
  heap (if b
        then invoke (EpochManagerSetEpoch n) (enterNewEpoch n w1)
        else w1)
  = heap w1.
Proof.
  intros Hcall. destruct b; [|reflexivity].
  rewrite enterNewEpoch_unfold. repeat (rewrite invoke_heap, Hcall).
  reflexivity.
Qed.

(** [processCCBlock] in full: the engine [e2] after the update of
    [highestCCBlock] and the finalisation of the parent, field by field,
    and the epoch step it is handed to. *)
Lemma processCCBlock_bookkeeping
    w (B : option ptr) (cc hcc par l : ExtendedBlock) :
  deref (heap w) B = Some cc ->
  deref (heap w) (highestCCBlock (eng w)) = Some hcc ->
  deref (heap w) (Parent cc) = Some par ->
  deref (heap w) (lastFinalizedBlock (eng w)) = Some l ->
  exists e2,
    epoch e2 = epoch (eng w) /\
    tip e2 = tip (eng w) /\
    incoming e2 = incoming (eng w) /\
    highestCCBlock e2
      = (if Height hcc <? Height cc then B else highestCCBlock (eng w)) /\
    lastFinalizedBlock e2
      = (match CommitCertificate par with
         | Some _ => if bytes_Compare (Hash par) (Hash l) =? 0
                     then lastFinalizedBlock (eng w) else Parent cc
         | None => lastFinalizedBlock (eng w)
         end) /\
    finalizedBlocks e2
      = (match CommitCertificate par with
         | Some _ => if bytes_Compare (Hash par) (Hash l) =? 0
                     then finalizedBlocks (eng w)
                     else (Chan.try_send (finalizedBlocks (eng w))
                                         (Block par)).1
         | None => finalizedBlocks (eng w)
         end) /\
    processCCBlock B w
      = Some (if epoch (eng w) <=? Epoch cc
              then invoke (EpochManagerSetEpoch (wrap32 (Epoch cc + 1)))
                     (enterNewEpoch (wrap32 (Epoch cc + 1))
                        (mkWorld (heap w) e2 (ext w) (calls w)))
              else mkWorld (heap w) e2 (ext w) (calls w)).
Proof.
  intros HB Hh Hp Hl.
  set (e1 := if Height hcc <? Height cc
             then set_highestCCBlock B (eng w) else eng w).
  assert (He1 : epoch e1 = epoch (eng w) /\
                tip e1 = tip (eng w) /\
                incoming e1 = incoming (eng w) /\
                lastFinalizedBlock e1 = lastFinalizedBlock (eng w) /\
                finalizedBlocks e1 = finalizedBlocks (eng w) /\
                highestCCBlock e1
                  = (if Height hcc <? Height cc then B
                     else highestCCBlock (eng w)))
    by (subst e1; destruct (Height hcc <? Height cc); now split_and!).
  destruct He1 as (Hep1 & Htip1 & Hin1 & Hlf1 & Hfb1 & Hhc1).
  unfold processCCBlock. rewrite HB; cbn. rewrite Hh; cbn.
  set (w0 := if Height hcc <? Height cc
             then upd_eng (set_highestCCBlock B) w else w).
  assert (Hw0 : w0 = mkWorld (heap w) e1 (ext w) (calls w)).
  { subst w0 e1. destruct (Height hcc <? Height cc); [reflexivity|].
    now rewrite World_eta. }
  rewrite Hw0; cbn [heap]. rewrite Hp; cbn.
  destruct (CommitCertificate par) as [cert|].
  - unfold finalizeBlock; cbn [heap eng]. rewrite Hp, Hlf1, Hl; cbn.
    destruct (bytes_Compare (Hash par) (Hash l) =? 0); cbn.
    + exists e1. rewrite Hep1. split_and!; try assumption; try reflexivity.
      now destruct (epoch (eng w) <=? Epoch cc).
    + rewrite Hfb1.
      destruct (Chan.try_send (finalizedBlocks (eng w)) (Block par))
        as [ch ok]; cbn.
      exists (set_finalizedBlocks ch (set_lastFinalizedBlock (Parent cc) e1)).
      cbn. rewrite Hep1. split_and!; try assumption; try reflexivity.
      now destruct (epoch (eng w) <=? Epoch cc).
  - exists e1. cbn. rewrite Hep1. split_and!; try assumption; try reflexivity.
    now destruct (epoch (eng w) <=? Epoch cc).
Qed.

(** Finalising the same block again changes nothing: a second
    [finalizeBlock] on the block just finalised is skipped by the hash
    test, so the block is published at most once in a row. *)
Theorem finalizeBlock_idempotent w w' (X : option ptr) :
  finalizeBlock X w = Some w' ->
  finalizeBlock X w' = Some w'.
Proof.
  unfold finalizeBlock.
  destruct (deref (heap w) X) as [b|] eqn:Hb; cbn; [|discriminate].
  destruct (deref (heap w) (lastFinalizedBlock (eng w))) as [l|] eqn:Hl;
    cbn; [|discriminate].
  destruct (bytes_Compare (Hash b) (Hash l) =? 0) eqn:E.
  - intros [= <-]. rewrite Hb; cbn. rewrite Hl; cbn. now rewrite E.
  - destruct (Chan.try_send (finalizedBlocks (eng w)) (Block b)) as [ch ok].
    intros [= <-]. cbn. rewrite Hb; cbn.
    unfold deref in Hb. rewrite Hb; cbn.
    now rewrite bytes_Compare_eqb_true.
Qed.

(** [finalizeBlock] never overfills the [finalizedBlocks] stream and never
    disturbs what is already in it: the stream stays within its capacity,
    what was buffered before is still there in the same order, at most one
    block is added, and no sender is ever parked on it. *)
Theorem finalizeBlock_stream_bounded w w' (X : option ptr) :
  Chan.wf (finalizedBlocks (eng w)) ->
  finalizeBlock X w = Some w' ->
  Chan.wf (finalizedBlocks (eng w')) /\
  (exists added,
     Chan.buf (finalizedBlocks (eng w'))
       = Chan.buf (finalizedBlocks (eng w)) ++ added /\
     (length added <= 1)%nat) /\
  Chan.sendq (finalizedBlocks (eng w')) = Chan.sendq (finalizedBlocks (eng w)).
Proof.
  intros Hwf. unfold finalizeBlock.
  destruct (deref (heap w) X) as [b|]; cbn; [|discriminate].
  destruct (deref (heap w) (lastFinalizedBlock (eng w))) as [l|]; cbn;
    [|discriminate].
  destruct (bytes_Compare (Hash b) (Hash l) =? 0).
  - intros [= <-]. split_and!; [assumption | | reflexivity].
    exists []. rewrite app_nil_r. split; [reflexivity | cbn; lia].
  - pose proof (try_send_wf (finalizedBlocks (eng w)) (Block b) Hwf) as Hwf'.
    revert Hwf'. unfold Chan.try_send.
    destruct (Chan.full (finalizedBlocks (eng w))); cbn; intros Hwf' [= <-];
      cbn; (split_and!; [assumption | | reflexivity]).
    + exists []. rewrite app_nil_r. split; [reflexivity | cbn; lia].
    + exists [Block b]. split; [reflexivity | cbn; lia].
Qed.

(** [processCCBlock] panics on a nil block, on a nil [highestCCBlock], and
    on a block without a parent (the chain root): [ccBlock.Parent] is read
    through unconditionally. *)
Theorem processCCBlock_nil_panics w (B : option ptr) :
  deref (heap w) B = None \/
  deref (heap w) (highestCCBlock (eng w)) = None \/
  (exists cc, deref (heap w) B = Some cc /\
              deref (heap w) (Parent cc) = None) ->
  processCCBlock B w = None.
Proof.
  unfold processCCBlock. intros [HB | [Hh | (cc & HB & Hp)]].
  - now rewrite HB.
  - destruct (deref (heap w) B); cbn; [|reflexivity]. now rewrite Hh.
  - rewrite HB; cbn.
    destruct (deref (heap w) (highestCCBlock (eng w))) as [hcc|]; cbn;
      [|reflexivity].
    destruct (Height hcc <? Height cc); cbn; now rewrite Hp.
Qed.

(** The two-chain rule as [processCCBlock] applies it.  When the parent of
    the newly certified block carries a certificate and its hash differs
    from the last finalized block's, the parent becomes
    [lastFinalizedBlock] and one non-blocking push of the parent's block is
    made; when the parent carries no certificate, or is the last finalized
    block already, neither [lastFinalizedBlock] nor the stream changes.
    (The collaborators notified afterwards are assumed not to assign these
    two fields.) *)
Theorem processCCBlock_two_chain
    w (B : option ptr) (cc hcc par l : ExtendedBlock) :
  deref (heap w) B = Some cc ->
  deref (heap w) (highestCCBlock (eng w)) = Some hcc ->
  deref (heap w) (Parent cc) = Some par ->
  deref (heap w) (lastFinalizedBlock (eng w)) = Some l ->
  (forall c w0,
     lastFinalizedBlock (eng (perform c w0)) = lastFinalizedBlock (eng w0) /\
     finalizedBlocks (eng (perform c w0)) = finalizedBlocks (eng w0)) ->
  exists w',
    processCCBlock B w = Some w' /\
    (is_Some (CommitCertificate par) -> Hash par <> Hash l ->
     lastFinalizedBlock (eng w') = Parent cc /\
     finalizedBlocks (eng w')
       = (Chan.try_send (finalizedBlocks (eng w)) (Block par)).1) /\
    (CommitCertificate par = None \/ Hash par = Hash l ->
     lastFinalizedBlock (eng w') = lastFinalizedBlock (eng w) /\
     finalizedBlocks (eng w') = finalizedBlocks (eng w)).
Proof.
  intros HB Hh Hp Hl Hframe.
  destruct (processCCBlock_bookkeeping w B cc hcc par l HB Hh Hp Hl)
    as (e2 & _ & _ & _ & _ & Hlf & Hfb & Hrun).
  eexists. split; [exact Hrun|].
  rewrite (epoch_step_frame lastFinalizedBlock)
    by (first [reflexivity | intros; apply Hframe]).
  rewrite (epoch_step_frame finalizedBlocks)
    by (first [reflexivity | intros; apply Hframe]).
  cbn [eng]. rewrite Hlf, Hfb. split.
  - intros [cert Hc] Hne. rewrite Hc.
    rewrite (bytes_Compare_eqb_false _ _ Hne). now split.
  - intros [Hc | Heq].
    + rewrite Hc. now split.
    + rewrite (bytes_Compare_eqb_true _ _ Heq).
      destruct (CommitCertificate par); now split.
Qed.

(** [highestCCBlock] never moves to a lower block: after [processCCBlock]
    its height is the maximum of its old height and the height of the newly
    certified block, and on a tie (equal heights) the block already there
    stays.  (The collaborators notified afterwards are assumed not to
    assign the field nor to alter the tree.) *)
Theorem processCCBlock_highestCC_max
    w (B : option ptr) (cc hcc par l : ExtendedBlock) :
  deref (heap w) B = Some cc ->
  deref (heap w) (highestCCBlock (eng w)) = Some hcc ->
  deref (heap w) (Parent cc) = Some par ->
  deref (heap w) (lastFinalizedBlock (eng w)) = Some l ->
  (forall c w0,
     highestCCBlock (eng (perform c w0)) = highestCCBlock (eng w0) /\
     heap (perform c w0) = heap w0) ->
  exists w' h',
    processCCBlock B w = Some w' /\
    deref (heap w') (highestCCBlock (eng w')) = Some h' /\
    Height h' = Z.max (Height hcc) (Height cc) /\
    (Height cc <= Height hcc ->
     highestCCBlock (eng w') = highestCCBlock (eng w)).
Proof.
  intros HB Hh Hp Hl Hframe.
  destruct (processCCBlock_bookkeeping w B cc hcc par l HB Hh Hp Hl)
    as (e2 & _ & _ & _ & Hhc & _ & _ & Hrun).
  eexists. exists (if Height hcc <? Height cc then cc else hcc).
  split; [exact Hrun|].
  rewrite (epoch_step_frame highestCCBlock)
    by (first [reflexivity | intros; apply Hframe]).
  rewrite epoch_step_heap by (intros; apply Hframe).
  cbn [eng heap]. rewrite Hhc.
  destruct (Height hcc <? Height cc) eqn:E.
  - apply Z.ltb_lt in E. split_and!; [exact HB | lia | lia].
  - apply Z.ltb_ge in E. split_and!; [exact Hh | lia | reflexivity].
Qed.

End EngineMore.

Section EngineLoop.
Import common blockchain consensus.
Context {Ext : Type} `{!Collaborators Ext}.
Implicit Types (w : World Ext) (c : Call).

(** After [processCCBlock] the engine's epoch is above the certified
    block's: it is the larger of the old epoch and [B.Epoch + 1] (for an
    epoch below the top of the 32-bit range), so processing a certificate
    never lowers the epoch.  (The collaborators notified are assumed not to
    assign the field.) *)
Theorem processCCBlock_epoch_max
    w (B : option ptr) (cc hcc par l : ExtendedBlock) :
  deref (heap w) B = Some cc ->
  deref (heap w) (highestCCBlock (eng w)) = Some hcc ->
  deref (heap w) (Parent cc) = Some par ->
  deref (heap w) (lastFinalizedBlock (eng w)) = Some l ->
  0 <= Epoch cc < 2 ^ 32 - 1 ->
  (forall c w0, epoch (eng (perform c w0)) = epoch (eng w0)) ->
  exists w',
    processCCBlock B w = Some w' /\
    epoch (eng w') = Z.max (epoch (eng w)) (Epoch cc + 1) /\
    Epoch cc < epoch (eng w') /\
    epoch (eng w) <= epoch (eng w').
Proof.
  intros HB Hh Hp Hl Hr Hframe.
  destruct (processCCBlock_bookkeeping w B cc hcc par l HB Hh Hp Hl)
    as (e2 & Hep & _ & _ & _ & _ & _ & Hrun).
  eexists. split; [exact Hrun|].
  assert (Hn : wrap32 (Epoch cc + 1) = Epoch cc + 1)
    by (apply wrap32_small; lia).
  rewrite Hn.
  destruct (epoch (eng w) <=? Epoch cc) eqn:E.
  - apply Z.leb_le in E.
    rewrite enterNewEpoch_unfold.
    repeat (rewrite invoke_eng, Hframe). cbn. lia.
  - apply Z.leb_gt in E. cbn. rewrite Hep. lia.
Qed.

(** [HandleMessage] never loses a message and never lets one overtake
    another: whether the send completes or parks, the message joins the
    tail of what is waiting to be received; nothing else in the engine, the
    tree or the record of calls changes. *)
Theorem HandleMessage_enqueues w (msg : Msg) :
  Chan.wf (incoming (eng w)) ->
  let w' := (HandleMessage msg w).1 in
  Chan.pending (incoming (eng w')) = Chan.pending (incoming (eng w)) ++ [msg] /\
  Chan.wf (incoming (eng w')) /\
  eng w' = set_incoming (incoming (eng w')) (eng w) /\
  heap w' = heap w /\ ext w' = ext w /\ calls w' = calls w.
Proof.
  intros Hwf. unfold HandleMessage.
  pose proof (send_pending (incoming (eng w)) msg Hwf) as Hp.
  pose proof (send_wf (incoming (eng w)) msg Hwf) as Hw.
  destruct (Chan.send (incoming (eng w)) msg) as [q o]. cbn in *.
  now split_and!.
Qed.

(** One turn of the loop on a queue with something waiting: the oldest
    message is taken and dispatched. *)
Lemma mainLoop_incoming_step w :
  Chan.wf (incoming (eng w)) ->
  Chan.pending (incoming (eng w)) <> [] ->
  (forall c w0, incoming (eng (perform c w0)) = incoming (eng w0)) ->
  exists msg w',
    mainLoop_incoming w = Some w' /\
    Chan.pending (incoming (eng w)) = msg :: Chan.pending (incoming (eng w')) /\
    Chan.wf (incoming (eng w')) /\
    calls w' = calls w ++ dispatched msg.
Proof.
  intros Hwf Hne Hframe.
  destruct (recv_pending _ Hwf Hne) as (msg & q & Hrecv & Hpend & Hwf').
  unfold mainLoop_incoming. rewrite Hrecv; cbn.
  exists msg. eexists. split; [reflexivity|].
  destruct msg as [p|v|tag]; cbn [dispatched].
  - unfold handleProposal. rewrite invoke_eng, Hframe, invoke_calls. cbn.
    now split_and!.
  - unfold handleVote. rewrite invoke_eng, Hframe, invoke_calls. cbn.
    now split_and!.
  - cbn. rewrite app_nil_r. now split_and!.
Qed.

(** The loop handles the waiting messages in the order they were
    delivered: taking as many turns as there are messages waiting (parked
    senders included) empties the queue, and the calls made are those for
    the messages in delivery order, a proposal going to the replica
    strategy, a vote to the proposer strategy, anything else to nobody.
    (The collaborators are assumed not to touch the queue.) *)
Theorem mainLoop_fifo w :
  Chan.wf (incoming (eng w)) ->
  (forall c w0, incoming (eng (perform c w0)) = incoming (eng w0)) ->
  let msgs := Chan.pending (incoming (eng w)) in
  let w' := mainLoop (repeat IncomingReady (length msgs)) w in
  calls w' = calls w ++ flat_map dispatched msgs /\
  Chan.pending (incoming (eng w')) = [].
Proof.
  intros Hwf Hframe. cbv zeta.
  remember (Chan.pending (incoming (eng w))) as msgs eqn:Hm.
  revert w Hwf Hm. induction msgs as [|m ms IH]; intros w Hwf Hm.
  - cbn. rewrite app_nil_r. now split.
  - assert (Hne : Chan.pending (incoming (eng w)) <> [])
      by (rewrite <- Hm; discriminate).
    destruct (mainLoop_incoming_step w Hwf Hne Hframe)
      as (msg & w1 & Hstep & Hpend & Hwf1 & Hcalls).
    rewrite <- Hm in Hpend. injection Hpend as <- Hms.
    cbn [length repeat mainLoop]. rewrite Hstep.
    destruct (IH w1 Hwf1 Hms) as [IHc IHp].
    split; [|exact IHp].
    rewrite IHc, Hcalls. cbn [flat_map]. now rewrite app_assoc.
Qed.

(** With nothing buffered a turn on the queue does nothing. *)
Lemma mainLoop_incoming_empty w :
  Chan.buf (incoming (eng w)) = [] -> mainLoop_incoming w = None.
Proof. intros Hb. unfold mainLoop_incoming. now rewrite recv_empty. Qed.

Lemma mainLoop_app (s1 s2 : list Ready) w :
  ~ In CtxDone s1 ->
  mainLoop (s1 ++ s2) w = mainLoop s2 (mainLoop s1 w).
Proof.
  revert w. induction s1 as [|r s1 IH]; intros w Hno; [reflexivity|].
  assert (Hno' : ~ In CtxDone s1) by (intros Hin; apply Hno; now right).
  destruct r as [| |n]; cbn [app mainLoop].
  - exfalso. apply Hno. now left.
  - destruct (mainLoop_incoming w); now apply IH.
  - now apply IH.
Qed.

(** The engine has no guard against stale epochs: after any turns of the
    loop that end with an epoch tick, the engine's epoch is the value of
    that last tick, whether it is higher or lower than the epoch before.
    (The collaborators are assumed not to assign the field.) *)
Theorem mainLoop_last_tick_wins (sched : list Ready) (n : Z) w :
  ~ In CtxDone sched ->
  (forall c w0, epoch (eng (perform c w0)) = epoch (eng w0)) ->
  epoch (eng (mainLoop (sched ++ [EpochReady n]) w)) = n /\
  exists before,
    calls (mainLoop (sched ++ [EpochReady n]) w)
    = before ++ [ProposerEnterNewEpoch n; ReplicaEnterNewEpoch n].
Proof.
  intros Hno Hframe. rewrite mainLoop_app by exact Hno.
  cbn [mainLoop]. unfold mainLoop_epoch. rewrite enterNewEpoch_unfold.
  split.
  - repeat (rewrite invoke_eng, Hframe). reflexivity.
  - exists (calls (mainLoop sched w)).
    rewrite !invoke_calls. cbn [calls upd_eng]. now rewrite <- app_assoc.
Qed.

(** A field of the engine that the loop's own assignments (the queue, the
    epoch) do not concern and that the collaborators leave alone is the
    same after any turns of the loop. *)
Lemma mainLoop_frame {B} (f : DefaultEngine -> B) (sched : list Ready) w :
  (forall e n, f (set_epoch n e) = f e) ->
  (forall e q, f (set_incoming q e) = f e) ->
  (forall c w0, f (eng (perform c w0)) = f (eng w0)) ->
  f (eng (mainLoop sched w)) = f (eng w).
Proof.
  intros He Hq Hc. revert w.
  induction sched as [|r sched IH]; intros w; [reflexivity|].
  destruct r as [| |n]; cbn [mainLoop].
  - reflexivity.
  - unfold mainLoop_incoming.
    destruct (Chan.recv (incoming (eng w))) as [[msg q]|]; cbn; [|apply IH].
    rewrite IH. destruct msg as [p|v|tag].
    + unfold handleProposal. rewrite invoke_eng, Hc. cbn. apply Hq.
    + unfold handleVote. rewrite invoke_eng, Hc. cbn. apply Hq.
    + cbn. apply Hq.
  - rewrite IH. unfold mainLoop_epoch. rewrite enterNewEpoch_unfold.
    repeat (rewrite invoke_eng, Hc). cbn. apply He.
Qed.

(** The loop itself never finalises a block and never moves a pointer:
    with collaborators that leave [highestCCBlock], [lastFinalizedBlock],
    [tip] and the [finalizedBlocks] stream alone, these four are the same
    after any turns of the loop; only the queue and the epoch change. *)
Theorem mainLoop_keeps_pointers (sched : list Ready) w :
  (forall c w0,
     highestCCBlock (eng (perform c w0)) = highestCCBlock (eng w0) /\
     lastFinalizedBlock (eng (perform c w0)) = lastFinalizedBlock (eng w0) /\
     tip (eng (perform c w0)) = tip (eng w0) /\
     finalizedBlocks (eng (perform c w0)) = finalizedBlocks (eng w0)) ->
  highestCCBlock (eng (mainLoop sched w)) = highestCCBlock (eng w) /\
  lastFinalizedBlock (eng (mainLoop sched w)) = lastFinalizedBlock (eng w) /\
  tip (eng (mainLoop sched w)) = tip (eng w) /\
  finalizedBlocks (eng (mainLoop sched w)) = finalizedBlocks (eng w).
Proof.
  intros Hframe.
  split_and!; apply mainLoop_frame;
    first [reflexivity | intros; apply Hframe].
Qed.

(** [setTip] is idempotent: called again with nothing in between it
    returns the same block and leaves the world as the first call left
    it. *)
Theorem setTip_idempotent w w' (r : option ptr) :
  setTip w = Some (r, w') ->
  setTip w' = Some (r, w').
Proof.
  intros Hrun. pose proof Hrun as Hrun'.
  apply setTip_frame in Hrun' as (_ & He & Hh & Hx & Hc).
  revert Hrun. unfold setTip. rewrite Hh, He. cbn [highestCCBlock set_tip].
  destruct (highestCCBlock (eng w)) as [from|]; [|cbn; discriminate].
  change (Some from ≫= ?f) with (f from). cbv beta.
  destruct (FindDeepestDescendant (S (size (heap w))) (heap w) from)
    as [[t d]|]; [|cbn; discriminate].
  cbn. intros [= <- Hw]. subst w'. reflexivity.
Qed.

End EngineLoop.

(** ** Block hashes and block printing *)

Section CoreMore.
Import common core.
Context `{Primitives}.

(** The cache is never refreshed: once [Hash] has been called on a header
    (and its hash is not the all-zero value), assigning any of the exported
    fields afterwards does not change what [Hash] returns; the header keeps
    the hash of the fields it had at the first call. *)
Theorem BlockHeader_Hash_survives_assignment (hd hd1 : BlockHeader)
    (chainID : string) (epoch height : Z) (parent txHash stateHash : Hash)
    (timestamp : option Z) (proposer : Address) :
  IsEmpty (BlockHeader_Hash (Some hd)).1 = false ->
  (BlockHeader_Hash (Some hd)).2 = Some hd1 ->
  let hd2 := mkBlockHeader chainID epoch height parent txHash stateHash
                           timestamp proposer (hash hd1) in
  BlockHeader_Hash (Some hd2) = ((BlockHeader_Hash (Some hd)).1, Some hd2).
Proof.
  intros Hne H1 hd2.
  rewrite BlockHeader_Hash_caches in H1. injection H1 as <-.
  cbn [hash set_hash] in hd2.
  apply BlockHeader_Hash_returns_cache. exact Hne.
Qed.

(** [ExtendedBlock.Hash] is the hash of the embedded header: it returns
    what [BlockHeader.Hash] and the promoted [Block.Hash] return, fills
    the header's cache, leaves the transactions, the children and the
    status as they were, and a second call returns the same hash and
    changes nothing more. *)
Theorem ExtendedBlock_Hash_through_header (h : option BlockHeader)
    (txs : list Bytes) (children : list Hash) (status : BlockStatus) :
  let eb := mkExtendedBlock (Some (mkBlock h txs)) children status in
  let v := (BlockHeader_Hash h).1 in
  let eb' := mkExtendedBlock (Some (mkBlock (BlockHeader_Hash h).2 txs))
                             children status in
  ExtendedBlock_Hash (Some eb) = Some (v, Some eb') /\
  fst <$> Block_Hash (Some (mkBlock h txs)) = Some v /\
  ExtendedBlock_Hash (Some eb') = Some (v, Some eb').
Proof.
  intros eb v eb'. subst eb v eb'.
  destruct (BlockHeader_Hash_stable h) as [Hs1 Hs2].
  split_and!.
  - unfold ExtendedBlock_Hash; cbn. now destruct (BlockHeader_Hash h).
  - now rewrite Block_Hash_unfold.
  - unfold ExtendedBlock_Hash; cbn.
    destruct (BlockHeader_Hash (BlockHeader_Hash h).2) as [v2 h2]; cbn in *.
    now subst.
Qed.

Lemma string_app_assoc (a b c : string) :
  ((a ++ b) ++ c)%string = (a ++ (b ++ c))%string.
Proof.
  induction a as [|x a IH]; [reflexivity|].
  change (String x ((a ++ b) ++ c) = String x (a ++ (b ++ c)))%string.
  now f_equal.
Qed.

Lemma string_app_nil_r (a : string) : (a ++ EmptyString)%string = a.
Proof.
  induction a as [|x a IH]; [reflexivity|].
  change (String x (a ++ EmptyString) = String x a)%string.
  now f_equal.
Qed.

Lemma children_loop (str : Hash -> string) (l : list Hash) (acc : string) :
  fold_left (children_step str) l (acc, true)
  = ((acc ++ fold_right String.append EmptyString (map str l))%string, true).
Proof.
  revert acc. induction l as [|c l IH]; intros acc.
  - cbn [fold_left map fold_right]. now rewrite string_app_nil_r.
  - cbn [fold_left map fold_right].
    change (children_step str (acc, true) c)
      with ((acc ++ str c)%string, true).
    rewrite IH. now rewrite string_app_assoc.
Qed.

(** [ExtendedBlock.String] never writes a separator between the children:
    the flag [start] is only ever assigned inside the branch it guards, so
    the comma branch is never taken, and the children are printed run
    together between the brackets. *)
Theorem ExtendedBlock_String_children_run_together
    (str : Hash -> string) (eb : ExtendedBlock) :
  ExtendedBlock_String_children str eb
  = ("[" ++ fold_right String.append EmptyString (map str (Children eb))
         ++ "]")%string.
Proof.
  unfold ExtendedBlock_String_children. rewrite children_loop. cbn [fst].
  now rewrite string_app_assoc.
Qed.

End CoreMore.

(** ** The address helper *)

Section TypesMore.
Import common types.

Lemma bytes_of_string_length (s : string) :
  length (bytes_of_string s) = String.length s.
Proof.
  unfold bytes_of_string. rewrite length_map.
  induction s as [|c s IH]; cbn; [reflexivity | now rewrite IH].
Qed.

Lemma skipn_repeat_sub {A} (x : A) (n m : nat) :
  skipn n (repeat x m) = repeat x (m - n).
Proof.
  revert m. induction n as [|n IH]; intros m.
  - now rewrite Nat.sub_0_r.
  - destruct m as [|m]; [reflexivity | apply IH].
Qed.

(** [getTestAddress] always yields twenty bytes: a string of at most twenty
    bytes is padded with zero bytes on the right, a longer one is cut to
    its first twenty bytes, so two strings that agree on their first twenty
    bytes give the same address. *)
Theorem getTestAddress_pads_or_truncates (addr : string) :
  length (getTestAddress addr) = 20%nat /\
  ((String.length addr <= 20)%nat ->
   getTestAddress addr
   = bytes_of_string addr ++ repeat x00 (20 - String.length addr)) /\
  ((20 <= String.length addr)%nat ->
   getTestAddress addr = firstn 20 (bytes_of_string addr)) /\
  (forall other,
     firstn 20 (bytes_of_string other) = firstn 20 (bytes_of_string addr) ->
     (20 <= String.length addr)%nat -> (20 <= String.length other)%nat ->
     getTestAddress other = getTestAddress addr).
Proof.
  unfold getTestAddress, copy, AddressLength.
  rewrite repeat_length.
  pose proof (bytes_of_string_length addr) as Hlen.
  assert (Hskip : forall n, skipn n (repeat x00 20) = repeat x00 (20 - n))
    by (intros n; apply skipn_repeat_sub).
  split_and!.
  - rewrite length_app, length_firstn, Hskip, repeat_length. lia.
  - intros Hle. rewrite Hskip, Hlen.
    rewrite firstn_all2 by lia. reflexivity.
  - intros Hge. rewrite Hskip, Hlen.
    replace (20 - String.length addr)%nat with 0%nat by lia.
    cbn. now rewrite app_nil_r.
  - intros other Hpre Hge Hge'.
    rewrite !Hskip, Hlen, (bytes_of_string_length other), Hpre.
    replace (20 - String.length addr)%nat with 0%nat by lia.
    replace (20 - String.length other)%nat with 0%nat by lia.
    reflexivity.
Qed.

End TypesMore.

(** ** The mempool handler, parsed messages *)

Section MempoolMore.
Import common mempool.
Context {Mempool : Type} `{!Backend Mempool}.

(** A message built by [ParseMessage] never reaches the pool through
    [HandleMessage]: [ParseMessage] stores the transaction by value while
    [HandleMessage] asserts a pointer, so on the transaction channel the
    type assertion panics, and on any other channel the channel test
    returns the error; either way [ProcessTransaction] is not called and
    the pool is unchanged.  [ParseMessage] itself reports no error,
    whatever the bytes. *)
Theorem ParseMessage_then_HandleMessage (peerID : string)
    (channelID : ChannelIDEnum) (raw : Bytes) (s : State Mempool) :
  let parsed := ParseMessage peerID channelID raw in
  parsed.2 = None /\
  PeerID parsed.1 = peerID /\
  ChannelID parsed.1 = channelID /\
  (HandleMessage parsed.1 s).2 = s /\
  (HandleMessage parsed.1 s).1
    = (if bool_decide (channelID = ChannelIDTransaction)
       then Panicked
       else Returned (Some (InvalidChannel channelID))).
Proof.
  cbn. unfold HandleMessage; cbn.
  destruct (bool_decide (channelID = ChannelIDTransaction)); cbn;
    now split_and!.
Qed.

(** On the transaction channel [HandleMessage] hands a
    [*mempoolTransaction] to the pool exactly once and returns the pool's
    verdict as it is, nil included; any other content makes the type
    assertion panic before the pool is touched. *)
Theorem HandleMessage_on_transaction_channel (message : Message)
    (s : State Mempool) :
  ChannelID message = ChannelIDTransaction ->
  match Content_of message with
  | ContentTxPointer mptx =>
      HandleMessage message s
      = (Returned (ProcessTransaction mptx (pool s)).2,
         mkState (ProcessTransaction mptx (pool s)).1 (processed s ++ [mptx]))
  | _ => HandleMessage message s = (Panicked, s)
  end.
Proof.
  intros Hc. unfold HandleMessage.
  rewrite bool_decide_eq_true_2 by exact Hc. cbn.
  destruct (Content_of message) as [mptx|mptx|tag]; try reflexivity.
  now destruct (ProcessTransaction mptx (pool s)).
Qed.

End MempoolMore.

(** ** The raw-transaction endpoint, refused input *)

Section RpcMore.
Import common rpc.
Context {Mempool : Type} `{!Backend Mempool}.

(** A transaction given with the usual 0x prefix is refused: the decoder
    stops at the letter x, the endpoint returns the decoder's error, and
    neither the result nor the mempool is touched. *)
Theorem BroadcastRawTransaction_rejects_0x_prefix (t : Server Mempool)
    (rest : string) (result : BroadcastRawTransactionResult) :
  BroadcastRawTransaction t (mkArgs (String "0" (String "x" rest))) result
  = (Some (HexError (InvalidByteError "x")), result, t).
Proof. reflexivity. Qed.

Lemma DecodeString_odd (s : string) :
  List.Forall (fun c => fromHexChar c <> None) (list_ascii_of_string s) ->
  Nat.odd (String.length s) = true ->
  (DecodeString s).2 = Some ErrLength.
Proof.
  induction s as [|c|c1 c2 s IH] using string_pairs_ind; cbn.
  - discriminate.
  - intros Hall _. apply List.Forall_inv in Hall.
    destruct (fromHexChar c) eqn:E; [reflexivity | congruence].
  - intros Hall Hodd.
    pose proof (List.Forall_inv Hall) as H1.
    pose proof (List.Forall_inv (List.Forall_inv_tail Hall)) as H2.
    pose proof (List.Forall_inv_tail (List.Forall_inv_tail Hall)) as H3.
    destruct (fromHexChar c1) eqn:E1; [|congruence].
    destruct (fromHexChar c2) eqn:E2; [|congruence].
    specialize (IH H3 Hodd).
    destruct (DecodeString s) as [bs err]. exact IH.
Qed.

(** An odd number of hexadecimal digits is refused with the decoder's
    length error; nothing is hashed and nothing is inserted. *)
Theorem BroadcastRawTransaction_rejects_odd_length (t : Server Mempool)
    (args : BroadcastRawTransactionArgs)
    (result : BroadcastRawTransactionResult) :
  List.Forall (fun c => fromHexChar c <> None)
              (list_ascii_of_string (TxBytes args)) ->
  Nat.odd (String.length (TxBytes args)) = true ->
  BroadcastRawTransaction t args result = (Some (HexError ErrLength), result, t).
Proof.
  intros Hall Hodd. pose proof (DecodeString_odd _ Hall Hodd) as Hd.
  unfold BroadcastRawTransaction.
  destruct (DecodeString (TxBytes args)) as [bs err]. cbn in Hd.
  now subst err.
Qed.

End RpcMore.

(** ** Unlocking a wallet *)

Section WalletMore.
Import common tx.
Context {S W : Type} `{!Env S W}.

(** Case analysis on the results of the outside calls a function makes,
    in the order it makes them. *)
Ltac outside_calls :=
  repeat first
    [ match goal with
      | |- context [wallet_OpenWallet ?a ?b ?c ?s] =>
          let E := fresh "Eopen" in
          destruct (wallet_OpenWallet a b c s) as [? [?|?]] eqn:E
      | |- context [utils_GetPassword ?p ?s] =>
          let E := fresh "Epass" in
          destruct (utils_GetPassword p s) as [? [?|?]] eqn:E
      | |- context [wallet_Unlock ?w ?a ?p ?s] =>
          let E := fresh "Eunlock" in
          destruct (wallet_Unlock w a p s) as [? [?|]] eqn:E
      | |- context [wallet_List ?w ?s] =>
          let E := fresh "Elist" in
          destruct (wallet_List w s) as [? [[|? ?]|?]] eqn:E
      end; cbn [env trace fst snd with_env record] ].

Ltac not_in_trace :=
  cbn [In]; intros; intuition discriminate.

(** The case of a case-by-case statement that the results at hand
    select: its outside calls are the ones recorded in the context. *)
Ltac this_case :=
  repeat (lazymatch goal with |- ex _ => eexists end); split_and!;
    first [ eassumption
          | reflexivity
          | unfold record, with_env; cbn [env trace];
            rewrite <- ?app_assoc; reflexivity ].

(** What a function appended to the record of calls of [st]. *)
Ltac added_to st X :=
  lazymatch X with
  | trace st => constr:(@nil Call)
  | ?Y ++ ?Z => let a := added_to st Y in constr:(a ++ Z)
  end.

Ltac give_added st :=
  lazymatch goal with
  | |- exists added, ?X = _ /\ _ =>
      let a := added_to st X in
      let a' := eval cbn [app] in a in
      exists a'; split; [rewrite <- ?app_assoc; reflexivity|]
  end.

(** [coldWalletUnlock], case by case.  It opens the cold wallet, unlocks
    it with the zero address and the empty password, and lists its
    addresses, in this order, stopping at the first step that fails.  A
    failing step makes it print the message of that step and return no
    wallet, the zero address and the very error the step reported; an empty
    list of addresses is a failure of its own, with its own message and
    error.  Otherwise nothing is printed and the wallet is returned with
    the first address listed.  No password is ever asked for. *)
Theorem coldWalletUnlock_outcome (st : State S) :
  let r := (coldWalletUnlock st).1 in
  let st' := (coldWalletUnlock st).2 in
  let opening := CallOpenWallet EmptyString WalletTypeCold true in
  let unlocking := CallUnlock zero_Address EmptyString in
  (exists e1 err,
     wallet_OpenWallet EmptyString WalletTypeCold true (env st) = (e1, inr err) /\
     r = (None, zero_Address, Some err) /\
     st' = mkState e1 (trace st ++ [opening;
                                    CallPrintf (FailedToOpenWallet err)])) \/
  (exists e1 wallet e2 err,
     wallet_OpenWallet EmptyString WalletTypeCold true (env st)
       = (e1, inl wallet) /\
     wallet_Unlock wallet zero_Address EmptyString e1 = (e2, Some err) /\
     r = (None, zero_Address, Some err) /\
     st' = mkState e2 (trace st ++ [opening; unlocking;
                                    CallPrintf (FailedToUnlockWallet err)])) \/
  (exists e1 wallet e2 e3 err,
     wallet_OpenWallet EmptyString WalletTypeCold true (env st)
       = (e1, inl wallet) /\
     wallet_Unlock wallet zero_Address EmptyString e1 = (e2, None) /\
     wallet_List wallet e2 = (e3, inr err) /\
     r = (None, zero_Address, Some err) /\
     st' = mkState e3 (trace st ++ [opening; unlocking; CallList;
                                    CallPrintf (FailedToListAddresses err)])) \/
  (exists e1 wallet e2 e3,
     wallet_OpenWallet EmptyString WalletTypeCold true (env st)
       = (e1, inl wallet) /\
     wallet_Unlock wallet zero_Address EmptyString e1 = (e2, None) /\
     wallet_List wallet e2 = (e3, inl []) /\
     r = (None, zero_Address, Some NoAddressDetected) /\
     st' = mkState e3 (trace st ++ [opening; unlocking; CallList;
                                    CallPrintf NoAddressDetectedMsg])) \/
  (exists e1 wallet e2 e3 address rest,
     wallet_OpenWallet EmptyString WalletTypeCold true (env st)
       = (e1, inl wallet) /\
     wallet_Unlock wallet zero_Address EmptyString e1 = (e2, None) /\
     wallet_List wallet e2 = (e3, inl (address :: rest)) /\
     r = (Some wallet, address, None) /\
     st' = mkState e3 (trace st ++ [opening; unlocking; CallList])).
Proof.
  intros r st' opening unlocking. subst r st' opening unlocking.
  unfold coldWalletUnlock. cbn [env trace fst snd with_env record].
  outside_calls; rewrite <- ?app_assoc; cbn [app];
    first [ left; this_case
          | right; left; this_case
          | do 2 right; left; this_case
          | do 3 right; left; this_case
          | do 4 right; this_case ].
Qed.

(** [softWalletUnlock], case by case.  It opens the soft wallet at
    [cfgPath], asks for the password, and unlocks the address
    [HexToAddress(addressStr)] with the password it was given, in this
    order, stopping at the first step that fails.  A failing step makes it
    print the message of that step and return no wallet, the zero address
    and the very error the step reported; so a wallet that cannot be opened
    is never asked a password, and a password that cannot be read unlocks
    nothing.  Otherwise nothing is printed and the wallet is returned with
    the address unlocked. *)
Theorem softWalletUnlock_outcome (cfgPath addressStr : string)
    (st : State S) :
  let r := (softWalletUnlock cfgPath addressStr st).1 in
  let st' := (softWalletUnlock cfgPath addressStr st).2 in
  let opening := CallOpenWallet cfgPath WalletTypeSoft true in
  let prompt := "Please enter password: "%string in
  let address := common_HexToAddress addressStr in
  (exists e1 err,
     wallet_OpenWallet cfgPath WalletTypeSoft true (env st) = (e1, inr err) /\
     r = (None, zero_Address, Some err) /\
     st' = mkState e1 (trace st ++ [opening;
                                    CallPrintf (FailedToOpenWallet err)])) \/
  (exists e1 wallet e2 err,
     wallet_OpenWallet cfgPath WalletTypeSoft true (env st)
       = (e1, inl wallet) /\
     utils_GetPassword prompt e1 = (e2, inr err) /\
     r = (None, zero_Address, Some err) /\
     st' = mkState e2 (trace st ++ [opening; CallGetPassword prompt;
                                    CallPrintf (FailedToGetPassword err)])) \/
  (exists e1 wallet e2 password e3 err,
     wallet_OpenWallet cfgPath WalletTypeSoft true (env st)
       = (e1, inl wallet) /\
     utils_GetPassword prompt e1 = (e2, inl password) /\
     wallet_Unlock wallet address password e2 = (e3, Some err) /\
     r = (None, zero_Address, Some err) /\
     st' = mkState e3 (trace st ++ [opening; CallGetPassword prompt;
                                    CallUnlock address password;
                                    CallPrintf
                                      (FailedToUnlockAddress address err)])) \/
  (exists e1 wallet e2 password e3,
     wallet_OpenWallet cfgPath WalletTypeSoft true (env st)
       = (e1, inl wallet) /\
     utils_GetPassword prompt e1 = (e2, inl password) /\
     wallet_Unlock wallet address password e2 = (e3, None) /\
     r = (Some wallet, address, None) /\
     st' = mkState e3 (trace st ++ [opening; CallGetPassword prompt;
                                    CallUnlock address password])).
Proof.
  intros r st' opening prompt address. subst r st' opening prompt address.
  unfold softWalletUnlock. cbn [env trace fst snd with_env record].
  outside_calls; rewrite <- ?app_assoc; cbn [app];
    first [ left; this_case
          | right; left; this_case
          | do 2 right; left; this_case
          | do 3 right; this_case ].
Qed.

Lemma walletUnlock_nano (cfg : option string) (a : string) (st : State S) :
  walletUnlock (mkCommand (Some "nano"%string) cfg) a st
  = (let '(r, st') := coldWalletUnlock st in (Returned r, st')).
Proof. reflexivity. Qed.

(** With the wallet flag set to "nano", [walletUnlock] works on the cold
    wallet alone: its result does not depend on the address given nor on
    the config flag (which may even be undefined), and no password is ever
    asked for. *)
Theorem walletUnlock_nano_ignores_address
    (cfg1 cfg2 : option string) (a1 a2 : string) (st : State S) :
  walletUnlock (mkCommand (Some "nano"%string) cfg1) a1 st
    = walletUnlock (mkCommand (Some "nano"%string) cfg2) a2 st /\
  (exists r, (walletUnlock (mkCommand (Some "nano"%string) cfg1) a1 st).1
             = Returned r) /\
  exists added,
    trace (walletUnlock (mkCommand (Some "nano"%string) cfg1) a1 st).2
      = trace st ++ added /\
    (forall prompt, ~ In (CallGetPassword prompt) added) /\
    (forall cfg ty flag, In (CallOpenWallet cfg ty flag) added ->
                         ty = WalletTypeCold).
Proof.
  rewrite !walletUnlock_nano. split; [reflexivity|].
  unfold coldWalletUnlock. cbn [env trace fst snd with_env record].
  outside_calls; (split; [now eexists|]); give_added st;
    (split; [not_in_trace|]);
    cbn [In]; intros cfg ty flag Hin; intuition congruence.
Qed.

(** Only the exact flag value "nano" selects the cold wallet: with any
    other value [walletUnlock] takes the soft-wallet path with the path of
    the config flag, never opens a cold wallet, and panics before calling
    anything when the config flag is undefined; with the wallet flag itself
    undefined it panics at once. *)
Theorem walletUnlock_soft_unless_nano (ws : option string)
    (cfg : option string) (addressStr : string) (st : State S) :
  ws <> Some "nano"%string ->
  match ws, cfg with
  | Some _, Some cfgPath =>
      walletUnlock (mkCommand ws cfg) addressStr st
        = (Returned (softWalletUnlock cfgPath addressStr st).1,
           (softWalletUnlock cfgPath addressStr st).2) /\
      exists added,
        trace (softWalletUnlock cfgPath addressStr st).2 = trace st ++ added /\
        forall c ty flag, In (CallOpenWallet c ty flag) added ->
                          ty = WalletTypeSoft /\ c = cfgPath
  | _, _ => walletUnlock (mkCommand ws cfg) addressStr st = (Panicked, st)
  end.
Proof.
  intros Hne. unfold walletUnlock, getWalletType; cbn [flag_wallet flag_config].
  destruct ws as [s|]; [|reflexivity].
  assert (Hs : (s =? "nano")%string = false)
    by (apply String.eqb_neq; congruence).
  rewrite Hs. destruct cfg as [cfgPath|]; [|reflexivity].
  split; [now destruct (softWalletUnlock cfgPath addressStr st)|].
  unfold softWalletUnlock. cbn [env trace fst snd with_env record].
  outside_calls; give_added st;
    cbn [In]; intros c ty flag Hin; intuition congruence.
Qed.

End WalletMore.

(** ** The further properties on the examples *)

Section MoreExamples.
Import common blockchain consensus.

Lemma silent_frame {B} (f : DefaultEngine -> B) (c : Call) (w0 : World unit) :
  f (eng (perform (Collaborators := silent) c w0)) = f (eng w0).
Proof. reflexivity. Defined.

(** Finalising b2 twice over the fresh engine. *)
Lemma finalizeBlock_idempotent_witness :
  exists w',
    finalizeBlock (Some 2%nat) fresh_world = Some w' /\
    finalizeBlock (Some 2%nat) w' = Some w'.
Proof.
  exists (upd_eng (set_finalizedBlocks (Chan.mk [102%nat] 5000 []))
            (upd_eng (set_lastFinalizedBlock (Some 2%nat)) fresh_world)).
  split; [reflexivity|].
  apply (finalizeBlock_idempotent fresh_world). reflexivity.
Defined.

Lemma finalizeBlock_stream_bounded_witness :
  Chan.wf (finalizedBlocks (eng fresh_world)) /\
  Chan.wf (Chan.mk [102%nat] 5000 ([] : list BlockRef)).
Proof.
  assert (Hwf : Chan.wf (finalizedBlocks (eng fresh_world)))
    by (apply (make_wf (A := BlockRef) 5000); reflexivity).
  split; [exact Hwf|].
  apply (finalizeBlock_stream_bounded fresh_world
           (upd_eng (set_finalizedBlocks (Chan.mk [102%nat] 5000 []))
              (upd_eng (set_lastFinalizedBlock (Some 2%nat)) fresh_world))
           (Some 2%nat) Hwf eq_refl).
Defined.

(** A certificate on genesis, which has no parent. *)
Lemma processCCBlock_nil_panics_witness :
  deref (heap fresh_world) (Parent genesis) = None /\
  processCCBlock (Collaborators0 := silent) (Some 0%nat) fresh_world = None.
Proof.
  split; [reflexivity|].
  apply (processCCBlock_nil_panics (Collaborators0 := silent)).
  right; right. exists genesis. split; reflexivity.
Defined.

(** The certificate of b3 finalises its parent b2, which carries one. *)
Lemma processCCBlock_two_chain_witness :
  exists w',
    processCCBlock (Collaborators0 := silent) (Some 3%nat) fresh_world
      = Some w' /\
    lastFinalizedBlock (eng w') = Some 2%nat.
Proof.
  destruct (processCCBlock_two_chain (Collaborators0 := silent) fresh_world
              (Some 3%nat) b3 genesis b2 genesis
              eq_refl eq_refl eq_refl eq_refl)
    as (w' & Hrun & Hfin & _).
  - intros c w0. split; reflexivity.
  - exists w'. split; [exact Hrun|].
    apply Hfin; [now eexists | discriminate].
Defined.

Lemma processCCBlock_highestCC_max_witness :
  exists w' h',
    processCCBlock (Collaborators0 := silent) (Some 3%nat) fresh_world
      = Some w' /\
    deref (heap w') (highestCCBlock (eng w')) = Some h' /\
    Height h' = 3.
Proof.
  destruct (processCCBlock_highestCC_max (Collaborators0 := silent)
              fresh_world (Some 3%nat) b3 genesis b2 genesis
              eq_refl eq_refl eq_refl eq_refl)
    as (w' & h' & Hrun & Hd & Hh & _).
  - intros c w0. split; reflexivity.
  - exists w', h'. split_and!; assumption.
Defined.

Lemma processCCBlock_epoch_max_witness :
  exists w',
    processCCBlock (Collaborators0 := silent) (Some 3%nat) fresh_world
      = Some w' /\
    epoch (eng w') = 4.
Proof.
  destruct (processCCBlock_epoch_max (Collaborators0 := silent) fresh_world
              (Some 3%nat) b3 genesis b2 genesis
              eq_refl eq_refl eq_refl eq_refl)
    as (w' & Hrun & Hep & _).
  - split; [discriminate | reflexivity].
  - intros c w0. reflexivity.
  - exists w'. split; assumption.
Defined.

Lemma HandleMessage_enqueues_witness :
  Chan.wf (incoming (eng fresh_world)) /\
  Chan.pending (incoming (eng (HandleMessage (MsgOther 1) fresh_world).1))
    = [MsgOther 1].
Proof.
  assert (Hwf : Chan.wf (incoming (eng fresh_world)))
    by (apply (make_wf (A := Msg) 5000); reflexivity).
  split; [exact Hwf|].
  apply (HandleMessage_enqueues fresh_world (MsgOther 1) Hwf).
Defined.

(** A vote, a message of unknown type and a proposal, delivered in this
    order, are handled in this order. *)
Lemma mainLoop_fifo_witness :
  let v := mkVote [] [x03] 3 [] in
  let p := mkProposal (Some 3%nat) None in
  let w := mkWorld tree
             (set_incoming
                (Chan.mk [MsgVote v; MsgOther 0; MsgProposal p] 5000 [])
                fresh_engine) tt init_calls in
  calls (mainLoop (Collaborators0 := silent)
           [IncomingReady; IncomingReady; IncomingReady] w)
  = init_calls ++ [ProposerHandleVote v; ReplicaHandleProposal p].
Proof.
  intros v p w.
  assert (Hwf : Chan.wf (incoming (eng w))).
  { unfold Chan.wf; cbn. split_and!; [reflexivity | discriminate | easy]. }
  apply (mainLoop_fifo (Collaborators0 := silent) w Hwf).
  intros c w0. reflexivity.
Defined.

Lemma mainLoop_last_tick_wins_witness :
  epoch (eng (mainLoop (Collaborators0 := silent)
                [EpochReady 7; EpochReady 3] fresh_world)) = 3.
Proof.
  apply (mainLoop_last_tick_wins (Collaborators0 := silent)
           [EpochReady 7] 3 fresh_world).
  - cbn. intros [Hd | []]. discriminate.
  - intros c w0. reflexivity.
Defined.

Lemma mainLoop_keeps_pointers_witness :
  tip (eng (mainLoop (Collaborators0 := silent)
              [EpochReady 7; IncomingReady] fresh_world)) = Some 0%nat.
Proof.
  apply (mainLoop_keeps_pointers (Collaborators0 := silent)
           [EpochReady 7; IncomingReady] fresh_world).
  intros c w0. split_and!; reflexivity.
Defined.

Lemma setTip_idempotent_witness :
  setTip fresh_world
    = Some (Some 3%nat, upd_eng (set_tip (Some 3%nat)) fresh_world) /\
  setTip (upd_eng (set_tip (Some 3%nat)) fresh_world)
    = Some (Some 3%nat, upd_eng (set_tip (Some 3%nat)) fresh_world).
Proof.
  assert (Hrun : setTip fresh_world
                 = Some (Some 3%nat,
                         upd_eng (set_tip (Some 3%nat)) fresh_world))
    by (vm_compute; reflexivity).
  split; [exact Hrun|].
  apply (setTip_idempotent fresh_world _ _ Hrun).
Defined.

End MoreExamples.

(** The sample header, hashed, then moved to epoch 9: the hash stays. *)
Lemma BlockHeader_Hash_survives_assignment_witness :
  let first := core.BlockHeader_Hash (H := core.toy_Primitives)
                 (Some core.sample_header) in
  common.IsEmpty first.1 = false /\
  core.BlockHeader_Hash (H := core.toy_Primitives)
    (Some (core.mkBlockHeader (String "t" EmptyString) 9 1
             common.zero_Hash common.zero_Hash common.zero_Hash
             (Some 1000) (repeat x01 common.AddressLength) first.1))
  = (first.1,
     Some (core.mkBlockHeader (String "t" EmptyString) 9 1
             common.zero_Hash common.zero_Hash common.zero_Hash
             (Some 1000) (repeat x01 common.AddressLength) first.1)).
Proof.
  intros first.
  assert (Hne : common.IsEmpty first.1 = false) by (vm_compute; reflexivity).
  split; [exact Hne|].
  apply (BlockHeader_Hash_survives_assignment (H := core.toy_Primitives)
           core.sample_header
           (core.set_hash first.1 core.sample_header)
           (String "t" EmptyString) 9 1
           common.zero_Hash common.zero_Hash common.zero_Hash
           (Some 1000) (repeat x01 common.AddressLength) Hne).
  reflexivity.
Defined.

Lemma getTestAddress_pads_or_truncates_witness :
  types.getTestAddress "123" = [x31; x32; x33] ++ repeat x00 17.
Proof.
  destruct (getTestAddress_pads_or_truncates "123") as (_ & Hpad & _).
  apply Hpad. cbn. lia.
Defined.

Lemma HandleMessage_on_transaction_channel_witness :
  mempool.HandleMessage (Backend0 := mempool.list_pool)
    (mempool.mkMessage EmptyString x05
       (mempool.ContentTxPointer (mempool.mkTx [x0a])))
    (mempool.mkState [] [])
  = (mempool.Returned None,
     mempool.mkState [[x0a]] [mempool.mkTx [x0a]]).
Proof.
  apply (HandleMessage_on_transaction_channel (Backend0 := mempool.list_pool)
           (mempool.mkMessage EmptyString x05
              (mempool.ContentTxPointer (mempool.mkTx [x0a])))
           (mempool.mkState [] [])).
  reflexivity.
Defined.

Lemma BroadcastRawTransaction_rejects_odd_length_witness :
  rpc.BroadcastRawTransaction (Backend0 := rpc.list_backend)
    (rpc.mkServer [] []) (rpc.mkArgs "abc") (rpc.mkResult EmptyString)
  = (Some (rpc.HexError rpc.ErrLength), rpc.mkResult EmptyString,
     rpc.mkServer [] []).
Proof.
  apply (BroadcastRawTransaction_rejects_odd_length
           (Backend0 := rpc.list_backend)
           (rpc.mkServer [] []) (rpc.mkArgs "abc")
           (rpc.mkResult EmptyString)).
  - repeat constructor; discriminate.
  - reflexivity.
Defined.


(** The wallet flag "soft" with the config path "cfg" on the example key
    store holding one address. *)
Lemma walletUnlock_soft_unless_nano_witness :
  tx.walletUnlock (Env0 := tx.desk)
    (tx.mkCommand (Some "soft"%string) (Some "cfg"%string)) "abc"
    (tx.mkState [types.getTestAddress "abc"] [])
  = (tx.Returned
       (tx.softWalletUnlock (Env0 := tx.desk) "cfg" "abc"
          (tx.mkState [types.getTestAddress "abc"] [])).1,
     (tx.softWalletUnlock (Env0 := tx.desk) "cfg" "abc"
        (tx.mkState [types.getTestAddress "abc"] [])).2).
Proof.
  destruct (walletUnlock_soft_unless_nano (Env0 := tx.desk)
              (Some "soft"%string) (Some "cfg"%string) "abc"
              (tx.mkState [types.getTestAddress "abc"] []))
    as [Hrun _].
  - discriminate.
  - exact Hrun.
Defined.
